(** * Layer-shell arrangement on a Wayland output

    A shallow embedding of [libqtile/backend/wayland/output.py]: the
    [Output] class with its geometry queries ([get_geometry], [contains],
    [screen]), the frame handler ([_on_frame]) and the arrangement of
    layer-shell surfaces ([organise_layers], [_organise_layer]).

    Python integers are unbounded, so they are [Z].  Python objects that are
    compared by identity ([is]) and mutated in place (the layer surfaces)
    live in a store indexed by their identity; calls on external
    collaborators (wlroots, the qtile core) are recorded as a trace of
    events. *)

From stdpp Require Import base decidable option list functions numbers.

Local Open Scope Z_scope.

(** ** Data model *)

(** [wlroots.wlr_types.layer_shell_v1.LayerShellV1Layer], in the order of
    the enum's values 0..3. *)
Inductive LayerShellV1Layer := BACKGROUND | BOTTOM | TOP | OVERLAY.

(** [list(LayerShellV1Layer)] and [reversed(LayerShellV1Layer)]. *)
Definition all_layers : list LayerShellV1Layer := [BACKGROUND; BOTTOM; TOP; OVERLAY].
Definition reversed_layers : list LayerShellV1Layer := reverse all_layers.

(** [LayerSurfaceV1KeyboardInteractivity]. *)
Inductive LayerSurfaceV1KeyboardInteractivity := NONE | EXCLUSIVE | ON_DEMAND.

#[global] Instance LayerShellV1Layer_eq_dec : EqDecision LayerShellV1Layer.
Proof. solve_decision. Defined.

#[global] Instance KeyboardInteractivity_eq_dec :
  EqDecision LayerSurfaceV1KeyboardInteractivity.
Proof. solve_decision. Defined.

(** The screen edge a layer surface is pinned to (the spec's [anchorEdges];
    [output.py] never reads it, only the placement capability does). *)
Inductive Edge := EdgeTop | EdgeBottom | EdgeLeft | EdgeRight.

(** [wlroots.util.box.Box]. *)
Record Box := mkBox { box_x : Z; box_y : Z; box_width : Z; box_height : Z }.

#[global] Instance Box_eq_dec : EqDecision Box.
Proof. solve_decision. Defined.

(** [win.surface.current]: the committed state of a layer surface. *)
Record LayerSurfaceV1State := mkSurfaceState {
  exclusive_zone : Z;
  keyboard_interactive : LayerSurfaceV1KeyboardInteractivity;
  desired_width : Z;
  desired_height : Z;
  anchor : Edge;
}.

(** A [LayerStatic] window: its surface's committed state and the position
    of its scene node ([win.node.x], [win.node.y]). *)
Record LayerStatic := mkLayerStatic {
  current : LayerSurfaceV1State;
  node_x : Z;
  node_y : Z;
}.

(** Windows are Python objects: the buckets and [core.exclusive_layer] hold
    references to them.  A reference is a [WinId]; the store maps it to the
    object's present state. *)
Definition WinId := nat.
Abbreviation Store := (WinId → LayerStatic).

(** [libqtile.config.Screen], with an index that tells screens of equal
    geometry apart (they are distinct objects). *)
Record Screen := mkScreen {
  screen_index : nat;
  screen_x : Z;
  screen_y : Z;
  screen_width : Z;
  screen_height : Z;
}.

#[global] Instance Screen_eq_dec : EqDecision Screen.
Proof. solve_decision. Defined.

(** [core.qtile]: the configured screens and the current one.  The source
    asserts [core.qtile is not None] before using it; the record is that
    case. *)
Record Qtile := mkQtile {
  screens : list Screen;
  current_screen : Screen;
}.

(** The part of [Core] that [Output] reads and writes.  [exclusive_layer]
    is a field of the core, not of an output. *)
Record Core := mkCore {
  exclusive_layer : option WinId;
  qtile : Qtile;
}.

Definition Margins : Type := Z * Z * Z * Z.

(** [Output]: position, the backend's effective resolution (read afresh at
    every use), the reserved space and the four buckets
    ([self.layers[layer]]). *)
Record Output := mkOutput {
  out_x : Z;
  out_y : Z;
  effective_resolution : Z * Z;
  _reserved_space : Margins;
  layers : LayerShellV1Layer → list WinId;
}.

(** A window or drag icon handed to [contains]. *)
Record Rect := mkRect {
  rect_x : Z;
  rect_y : Z;
  rect_width : Z;
  rect_height : Z;
}.

(** [wlroots.util.clock.Timespec]. *)
Record Timespec := mkTimespec { tv_sec : Z; tv_nsec : Z }.

(** Calls on external collaborators, in the order they are made. *)
Inductive Event :=
| EvConfigure (win : WinId) (full_area usable_area : Box)
| EvPlace (win : WinId) (x y width height borderwidth : Z)
| EvReserveSpace (delta : Margins) (screen : Screen)
| EvFocusWindow (win : WinId)
| EvSceneCommit
| EvSendFrameDone (now : Timespec).

(** ** Geometry queries *)

(** [Output.get_geometry]. *)
Definition get_geometry (o : Output) : Z * Z * Z * Z :=
  let '(width, height) := effective_resolution o in
  (out_x o, out_y o, width, height).

(** [Output.contains]: four early returns, then [True]. *)
Definition contains (o : Output) (rect : Rect) : bool :=
  if rect_x rect + rect_width rect <? out_x o then false
  else if rect_y rect + rect_height rect <? out_y o then false
  else
    let '(ow, oh) := effective_resolution o in
    if out_x o + ow <? rect_x rect then false
    else if out_y o + oh <? rect_y rect then false
    else true.

(** ** Screen mapping *)

(** The test of the loop body in [Output.screen]. *)
Definition screen_matches (g : Z * Z * Z * Z) (s : Screen) : bool :=
  let '(x, y, w, h) := g in
  if bool_decide (screen_x s = x ∧ screen_y s = y) then
    bool_decide (screen_width s = w ∧ screen_height s = h)
  else false.

(** The [for] loop of [Output.screen]: the first matching screen is
    returned; [None] stands for falling out of the loop. *)
Fixpoint find_screen (g : Z * Z * Z * Z) (ss : list Screen) : option Screen :=
  match ss with
  | [] => None
  | s :: ss' => if screen_matches g s then Some s else find_screen g ss'
  end.

(** [Output.screen]. *)
Definition screen (c : Core) (o : Output) : Screen :=
  if bool_decide (1 < length (screens (qtile c)))%nat then
    match find_screen (get_geometry o) (screens (qtile c)) with
    | Some s => s
    | None => current_screen (qtile c)
    end
  else current_screen (qtile c).

(** ** Frame handler *)

(** What [self._scene_output.commit()] can do: return, or raise. *)
Inductive PyException := RuntimeError | OtherException.

Inductive CommitOutcome := CommitOk | CommitRaises (e : PyException).

(** How a handler ends: it returns [None] or an exception leaves it. *)
Inductive Completion := Returns | Propagates (e : PyException).

(** [Output._on_frame], given what the commit does and what the monotonic
    clock would read. *)
Definition _on_frame (commit : CommitOutcome) (monotonic_time : Timespec)
  : list Event * Completion :=
  match commit with
  | CommitRaises RuntimeError => ([EvSceneCommit], Returns)
  | CommitRaises e => ([EvSceneCommit], Propagates e)
  | CommitOk => ([EvSceneCommit; EvSendFrameDone monotonic_time], Returns)
  end.

(** ** Arrangement of layer surfaces *)

(** What [win.scene_layer.configure(full_area, usable_area)] leaves behind:
    the usable area, which it updates in place, and the position it gives
    the window's scene node. *)
Record Configured := mkConfigured {
  cfg_usable : Box;
  cfg_node_x : Z;
  cfg_node_y : Z;
}.

(** The surface placement capability is wlroots' and not part of
    [output.py]; the arrangement is stated over any implementation of it.
    It reads the surface's committed state and the two boxes. *)
Class ScenePlacement :=
  configure : LayerSurfaceV1State → Box → Box → Configured.

(** The result of one pass over some windows: the store (scene nodes
    moved), the usable area and the calls made. *)
Record Pass := mkPass {
  pass_store : Store;
  pass_usable : Box;
  pass_trace : list Event;
}.

(** [Output._organise_layer], on the windows of one bucket.  [exclusive !=
    (0 < state.exclusive_zone)] skips the window; otherwise it is
    configured, which updates [usable_area] and the node, and then placed
    at the node's position with its desired size. *)
Fixpoint _organise_layer `{ScenePlacement} (wins : list WinId) (full_area : Box)
    (exclusive : bool) (st : Store) (usable_area : Box) : Pass :=
  match wins with
  | [] => mkPass st usable_area []
  | win :: wins' =>
      let state := current (st win) in
      if xorb exclusive (0 <? exclusive_zone state) then
        _organise_layer wins' full_area exclusive st usable_area
      else
        let r := configure state full_area usable_area in
        let win' := mkLayerStatic state (cfg_node_x r) (cfg_node_y r) in
        let p := _organise_layer wins' full_area exclusive (<[win := win']> st)
                   (cfg_usable r) in
        mkPass (pass_store p) (pass_usable p)
          (EvConfigure win full_area usable_area
           :: EvPlace win (node_x win') (node_y win')
                (desired_width state) (desired_height state) 0
           :: pass_trace p)
  end.

(** [for layer in ls: self._organise_layer(layer, ...)]. *)
Fixpoint organise_pass `{ScenePlacement} (ls : list LayerShellV1Layer) (o : Output)
    (full_area : Box) (exclusive : bool) (st : Store) (usable_area : Box) : Pass :=
  match ls with
  | [] => mkPass st usable_area []
  | layer :: ls' =>
      let p := _organise_layer (layers o layer) full_area exclusive st usable_area in
      let q := organise_pass ls' o full_area exclusive (pass_store p) (pass_usable p) in
      mkPass (pass_store q) (pass_usable q) (pass_trace p ++ pass_trace q)
  end.

(** The inner loop of the search for the topmost keyboard-interactive
    layer.  The boolean tells whether the [return] was reached. *)
Fixpoint focus_scan_layer (st : Store) (wins : list WinId) (c : Core)
  : bool * Core * list Event :=
  match wins with
  | [] => (false, c, [])
  | win :: wins' =>
      if decide (keyboard_interactive (current (st win)) = EXCLUSIVE) then
        (true, mkCore (Some win) (qtile c), [EvFocusWindow win])
      else if decide (exclusive_layer c = Some win) then
        focus_scan_layer st wins' (mkCore None (qtile c))
      else focus_scan_layer st wins' c
  end.

(** The outer loop, over [(OVERLAY, TOP)]. *)
Fixpoint focus_scan (st : Store) (ls : list LayerShellV1Layer) (o : Output) (c : Core)
  : Core * list Event :=
  match ls with
  | [] => (c, [])
  | layer :: ls' =>
      let '(returned, c', tr) := focus_scan_layer st (layers o layer) c in
      if returned then (c', tr)
      else let '(c'', tr') := focus_scan st ls' o c' in (c'', tr ++ tr')
  end.

(** The reserved space read off the usable area. *)
Definition reserved_space_of (ow oh : Z) (usable_area : Box) : Margins :=
  (box_x usable_area,
   ow - box_x usable_area - box_width usable_area,
   box_y usable_area,
   oh - box_y usable_area - box_height usable_area).

(** [tuple(new - old for new, old in zip(a, b))]. *)
Definition margins_sub (a b : Margins) : Margins :=
  let '(a1, a2, a3, a4) := a in
  let '(b1, b2, b3, b4) := b in
  (a1 - b1, a2 - b2, a3 - b3, a4 - b4).

(** What a call of [organise_layers] leaves: the store, the core, the
    output and the calls made. *)
Record Organised := mkOrganised {
  org_store : Store;
  org_core : Core;
  org_output : Output;
  org_trace : list Event;
}.

(** [Output.organise_layers]. *)
Definition organise_layers `{ScenePlacement} (st : Store) (c : Core) (o : Output)
  : Organised :=
  let '(ow, oh) := effective_resolution o in
  let full_area := mkBox 0 0 ow oh in
  let usable_area := mkBox 0 0 ow oh in
  let p1 := organise_pass reversed_layers o full_area true st usable_area in
  let new_reserved_space := reserved_space_of ow oh (pass_usable p1) in
  let delta := margins_sub new_reserved_space (_reserved_space o) in
  let reserve := EvReserveSpace delta (screen c o) in
  let o' := mkOutput (out_x o) (out_y o) (effective_resolution o)
              new_reserved_space (layers o) in
  let p2 := organise_pass reversed_layers o full_area false (pass_store p1)
              (pass_usable p1) in
  let '(c', tr) := focus_scan (pass_store p2) [OVERLAY; TOP] o c in
  mkOrganised (pass_store p2) c' o'
    (pass_trace p1 ++ reserve :: pass_trace p2 ++ tr).

(** The compositor: the window store, the core and the outputs the core
    holds ([core.outputs]); every output shares the one core. *)
Record Compositor := mkCompositor {
  comp_store : Store;
  comp_core : Core;
  comp_outputs : list Output;
}.

(** [core.outputs[i].organise_layers()]. *)
Definition organise_layers_at `{ScenePlacement} (i : nat) (w : Compositor)
  : Compositor * list Event :=
  match comp_outputs w !! i with
  | None => (w, [])
  | Some o =>
      let r := organise_layers (comp_store w) (comp_core w) o in
      (mkCompositor (org_store r) (org_core r) (<[i := org_output r]> (comp_outputs w)),
       org_trace r)
  end.

(** ** The placement capability, from its description *)

(** Shrinking the usable area along the anchored edge by the exclusive
    zone. *)
Definition shrink_usable (state : LayerSurfaceV1State) (usable_area : Box) : Box :=
  let z := exclusive_zone state in
  let '(mkBox x y w h) := usable_area in
  match anchor state with
  | EdgeTop => mkBox x (y + z) w (h - z)
  | EdgeBottom => mkBox x y w (h - z)
  | EdgeLeft => mkBox (x + z) y (w - z) h
  | EdgeRight => mkBox x y (w - z) h
  end.

(** Modelled from the spec: the surface placement capability
    [configure(fullArea, usableArea)] of a layer surface, which is wlroots'
    and missing from the sources.  The spec says it "configures the
    surface's rendered position/size and shrinks usableArea along the
    surface's anchored edge by exclusiveZone" and that it "mutates
    usableArea in place when the surface is exclusive".  The node is pinned
    to the anchored edge of the usable area it is given. *)
Definition spec_configure : ScenePlacement := λ state full_area usable_area,
  let '(mkBox x y w h) := usable_area in
  let usable' :=
    if 0 <? exclusive_zone state then shrink_usable state usable_area
    else usable_area in
  match anchor state with
  | EdgeTop | EdgeLeft => mkConfigured usable' x y
  | EdgeBottom => mkConfigured usable' x (y + h - desired_height state)
  | EdgeRight => mkConfigured usable' (x + w - desired_width state) y
  end.

(** ** Vocabulary of the properties *)

(** The traversal order of both arrangement passes. *)
Definition all_surfaces (o : Output) : list WinId :=
  layers o OVERLAY ++ layers o TOP ++ layers o BOTTOM ++ layers o BACKGROUND.

(** The surfaces the focus scan can visit, in its order. *)
Definition scanned_surfaces (o : Output) : list WinId :=
  layers o OVERLAY ++ layers o TOP.

(** A surface reserves space: its committed exclusive zone is positive. *)
Definition reserves_space (st : Store) (win : WinId) : Prop :=
  0 < exclusive_zone (current (st win)).

(** A surface's committed keyboard interactivity is EXCLUSIVE. *)
Definition wants_exclusive (st : Store) (win : WinId) : Prop :=
  keyboard_interactive (current (st win)) = EXCLUSIVE.

#[global] Instance reserves_space_dec st win : Decision (reserves_space st win).
Proof. unfold reserves_space. apply _. Defined.

#[global] Instance wants_exclusive_dec st win : Decision (wants_exclusive st win).
Proof. unfold wants_exclusive. apply _. Defined.

(** Reading a trace: who was configured, with which usable area, who was
    placed, what was reported, who was focused, how often frame-done was
    sent. *)
Definition configured_wins (tr : list Event) : list WinId :=
  omap (λ e, match e with EvConfigure w _ _ => Some w | _ => None end) tr.

Definition configured_against (tr : list Event) : list Box :=
  omap (λ e, match e with EvConfigure _ _ u => Some u | _ => None end) tr.

Definition placed_wins (tr : list Event) : list WinId :=
  omap (λ e, match e with EvPlace w _ _ _ _ _ => Some w | _ => None end) tr.

Definition reported_deltas (tr : list Event) : list (Margins * Screen) :=
  omap (λ e, match e with EvReserveSpace d s => Some (d, s) | _ => None end) tr.

Definition focused_wins (tr : list Event) : list WinId :=
  omap (λ e, match e with EvFocusWindow w => Some w | _ => None end) tr.

Definition frame_done_sent (tr : list Event) : list Timespec :=
  omap (λ e, match e with EvSendFrameDone t => Some t | _ => None end) tr.

Definition is_reserve (e : Event) : bool :=
  match e with EvReserveSpace _ _ => true | _ => false end.

(** The calls made before the report to the reserved-space sink, and the
    calls made after it. *)
Fixpoint before_reserve (tr : list Event) : list Event :=
  match tr with
  | [] => []
  | e :: tr' => if is_reserve e then [] else e :: before_reserve tr'
  end.

Fixpoint after_reserve (tr : list Event) : list Event :=
  match tr with
  | [] => []
  | e :: tr' => if is_reserve e then tr' else after_reserve tr'
  end.

(** The usable area the exclusive pass of [organise_layers] ends with. *)
Definition final_usable_area `{ScenePlacement} (st : Store) (o : Output) : Box :=
  let '(ow, oh) := effective_resolution o in
  pass_usable
    (organise_pass reversed_layers o (mkBox 0 0 ow oh) true st (mkBox 0 0 ow oh)).

(** Total exclusive zone that the surfaces [wins] reserve on one edge. *)
Definition zone_on (e : Edge) (st : Store) (wins : list WinId) : Z :=
  foldr (λ win acc,
    let state := current (st win) in
    (if 0 <? exclusive_zone state then
       match e, anchor state with
       | EdgeTop, EdgeTop | EdgeBottom, EdgeBottom
       | EdgeLeft, EdgeLeft | EdgeRight, EdgeRight => exclusive_zone state
       | _, _ => 0
       end
     else 0) + acc) 0 wins.

(** The bound of the reserved space: no margin is negative and opposite
    margins fit the output. *)
Definition margins_bounded (ow oh : Z) (m : Margins) : Prop :=
  let '(l, r, t, b) := m in
  0 ≤ l ∧ 0 ≤ r ∧ 0 ≤ t ∧ 0 ≤ b ∧ l + r ≤ ow ∧ t + b ≤ oh.

(** The usable area is a box inside the full area. *)
Definition usable_within (ow oh : Z) (u : Box) : Prop :=
  0 ≤ box_x u ∧ 0 ≤ box_width u ∧ box_x u + box_width u ≤ ow ∧
  0 ≤ box_y u ∧ 0 ≤ box_height u ∧ box_y u + box_height u ≤ oh.

(** The first surface of [wins] that wants exclusive keyboard focus. *)
Fixpoint first_exclusive (st : Store) (wins : list WinId) : option WinId :=
  match wins with
  | [] => None
  | win :: wins' =>
      if decide (wants_exclusive st win) then Some win
      else first_exclusive st wins'
  end.

(** The holder a scan of [wins] leaves when it started from [holder]: the
    first surface that wants exclusive focus if there is one; otherwise
    nothing if the old holder was among [wins], and the old holder if it
    was not. *)
Definition holder_after (st : Store) (wins : list WinId) (holder : option WinId)
  : option WinId :=
  match first_exclusive st wins with
  | Some win => Some win
  | None =>
      match holder with
      | Some h => if decide (h ∈ wins) then None else Some h
      | None => None
      end
  end.

(** The focus requests a scan of [wins] makes. *)
Definition focus_requests (st : Store) (wins : list WinId) : list Event :=
  match first_exclusive st wins with
  | Some win => [EvFocusWindow win]
  | None => []
  end.

(** The three states the holder can be in after a scan of output [o]. *)
Definition holder_none (c : Core) : Prop := exclusive_layer c = None.

Definition holder_exclusive_on (st : Store) (o : Output) (c : Core) : Prop :=
  ∃ win, exclusive_layer c = Some win ∧ win ∈ scanned_surfaces o ∧
         wants_exclusive st win.

Definition holder_unscanned (o : Output) (c : Core) : Prop :=
  ∃ win, exclusive_layer c = Some win ∧ win ∉ scanned_surfaces o.

(** Where a rectangle lies with respect to the output's bounding box, the
    box being read with its edges: the rectangle is beyond an edge when
    even its nearest edge is. *)
Definition lies_left_of (rect : Rect) (o : Output) : Prop :=
  rect_x rect + rect_width rect < out_x o.

Definition lies_above (rect : Rect) (o : Output) : Prop :=
  rect_y rect + rect_height rect < out_y o.

Definition lies_right_of (rect : Rect) (o : Output) : Prop :=
  out_x o + (effective_resolution o).1 < rect_x rect.

Definition lies_below (rect : Rect) (o : Output) : Prop :=
  out_y o + (effective_resolution o).2 < rect_y rect.

(** Points of the plane covered by a rectangle and by the output's
    bounding box, edges included, and strictly inside the output. *)
Definition in_rect (rect : Rect) (px py : Z) : Prop :=
  rect_x rect ≤ px ≤ rect_x rect + rect_width rect ∧
  rect_y rect ≤ py ≤ rect_y rect + rect_height rect.

Definition in_output (o : Output) (px py : Z) : Prop :=
  out_x o ≤ px ≤ out_x o + (effective_resolution o).1 ∧
  out_y o ≤ py ≤ out_y o + (effective_resolution o).2.

Definition inside_output (o : Output) (px py : Z) : Prop :=
  out_x o < px < out_x o + (effective_resolution o).1 ∧
  out_y o < py < out_y o + (effective_resolution o).2.

(** Extent of the overlap of two spans [a, a+la] and [b, b+lb], and the
    area a rectangle shares with the output. *)
Definition span_overlap (a la b lb : Z) : Z :=
  Z.max 0 (Z.min (a + la) (b + lb) - Z.max a b).

Definition overlap_area (o : Output) (rect : Rect) : Z :=
  span_overlap (rect_x rect) (rect_width rect) (out_x o) (effective_resolution o).1
  * span_overlap (rect_y rect) (rect_height rect) (out_y o) (effective_resolution o).2.

(** The rectangle only touches the bounding box: one of its edges lies on
    the facing edge of the box, and along that edge the two meet. *)
Definition meets_vertically (o : Output) (rect : Rect) : Prop :=
  out_y o ≤ rect_y rect + rect_height rect ∧
  rect_y rect ≤ out_y o + (effective_resolution o).2.

Definition meets_horizontally (o : Output) (rect : Rect) : Prop :=
  out_x o ≤ rect_x rect + rect_width rect ∧
  rect_x rect ≤ out_x o + (effective_resolution o).1.

Definition touches_boundary (o : Output) (rect : Rect) : Prop :=
  (rect_x rect + rect_width rect = out_x o ∧ meets_vertically o rect) ∨
  (rect_x rect = out_x o + (effective_resolution o).1 ∧ meets_vertically o rect) ∨
  (rect_y rect + rect_height rect = out_y o ∧ meets_horizontally o rect) ∨
  (rect_y rect = out_y o + (effective_resolution o).2 ∧ meets_horizontally o rect).

(** Two stores hold the same committed surface states. *)
Definition same_committed (st1 st2 : Store) : Prop :=
  ∀ win, current (st1 win) = current (st2 win).

(** Neither the rectangle nor the output has a negative extent. *)
Definition sizes_nonneg (o : Output) (rect : Rect) : Prop :=
  0 ≤ rect_width rect ∧ 0 ≤ rect_height rect ∧
  0 ≤ (effective_resolution o).1 ∧ 0 ≤ (effective_resolution o).2.

(** A screen's position and size both equal the output's geometry. *)
Definition geometry_equal (o : Output) (s : Screen) : Prop :=
  (screen_x s = out_x o ∧ screen_y s = out_y o) ∧
  (screen_width s = (effective_resolution o).1 ∧
   screen_height s = (effective_resolution o).2).

(** ** Example surfaces, outputs and compositors *)

(** A panel reserving 32 rows at the top, a wallpaper, two surfaces that
    want exclusive keyboard focus, a panel asking for more rows than a
    1080-row output has, and a surface that wants nothing. *)
Definition panel_state := mkSurfaceState 32 NONE 1920 32 EdgeTop.
Definition wallpaper_state := mkSurfaceState 0 NONE 1920 1080 EdgeTop.
Definition launcher_state := mkSurfaceState 0 EXCLUSIVE 600 400 EdgeTop.
Definition lock_state := mkSurfaceState 0 EXCLUSIVE 1920 1080 EdgeTop.
Definition oversized_state := mkSurfaceState 2000 NONE 1920 2000 EdgeTop.
Definition plain_state := mkSurfaceState 0 NONE 600 400 EdgeTop.

Definition example_store : Store := λ win,
  mkLayerStatic
    match win with
    | 1%nat => panel_state
    | 2%nat => wallpaper_state
    | 3%nat => launcher_state
    | 4%nat => lock_state
    | 5%nat => oversized_state
    | _ => plain_state
    end 0 0.

(** The same windows after the launcher (window 3) committed a state
    without exclusive keyboard focus. *)
Definition released_store : Store :=
  <[3%nat := mkLayerStatic plain_state 0 0]> example_store.

Definition example_screen : Screen := mkScreen 0 0 0 1920 1080.
Definition second_screen : Screen := mkScreen 1 1920 0 1920 1080.
Definition twin_screen : Screen := mkScreen 2 1920 0 1920 1080.

Definition example_core : Core :=
  mkCore None (mkQtile [example_screen] example_screen).

Definition two_screen_core : Core :=
  mkCore None (mkQtile [example_screen; second_screen; twin_screen] example_screen).

(** A 1920x1080 output at the origin with the given buckets. *)
Definition output_with (ls : LayerShellV1Layer → list WinId) : Output :=
  mkOutput 0 0 (1920, 1080) (0, 0, 0, 0) ls.

Definition no_layers : LayerShellV1Layer → list WinId := λ _, [].

(** Scenario B: a panel on TOP, a wallpaper on BACKGROUND. *)
Definition scenario_b_layers : LayerShellV1Layer → list WinId := λ layer,
  match layer with TOP => [1%nat] | BACKGROUND => [2%nat] | _ => [] end.

(** Scenario C: S1 (window 3) on OVERLAY behind a plain surface, S2
    (window 4) on TOP. *)
Definition scenario_c_layers : LayerShellV1Layer → list WinId := λ layer,
  match layer with OVERLAY => [6%nat; 3%nat] | TOP => [4%nat] | _ => [] end.

Definition oversized_layers : LayerShellV1Layer → list WinId := λ layer,
  match layer with TOP => [5%nat] | _ => [] end.

(** The launcher on TOP, and the same output after the launcher moved to
    BOTTOM. *)
Definition launcher_on_top : LayerShellV1Layer → list WinId := λ layer,
  match layer with TOP => [3%nat] | _ => [] end.

Definition launcher_on_bottom : LayerShellV1Layer → list WinId := λ layer,
  match layer with BOTTOM => [3%nat] | _ => [] end.

Definition lock_on_top : LayerShellV1Layer → list WinId := λ layer,
  match layer with TOP => [4%nat] | _ => [] end.

(** Two outputs side by side: the launcher on the left one, the lock
    surface on the right one. *)
Definition right_output (ls : LayerShellV1Layer → list WinId) : Output :=
  mkOutput 1920 0 (1920, 1080) (0, 0, 0, 0) ls.

Definition two_outputs : Compositor :=
  mkCompositor example_store two_screen_core
    [output_with launcher_on_top; right_output lock_on_top].

(** Two outputs of which only the left one has a surface. *)
Definition left_only : Compositor :=
  mkCompositor example_store two_screen_core
    [output_with launcher_on_top; right_output no_layers].

(** The compositor after the launcher moved to the right output and gave
    up exclusive focus, the core still naming it as holder. *)
Definition launcher_moved : Compositor :=
  mkCompositor released_store
    (mkCore (Some 3%nat) (qtile two_screen_core))
    [output_with no_layers; right_output launcher_on_top].

Definition example_time : Timespec := mkTimespec 12 500.

(** A run: the launcher is on TOP when the layers are organised; it then
    moves to BOTTOM and the layers are organised again. *)
Definition launcher_focused : Organised :=
  @organise_layers spec_configure example_store example_core
    (output_with launcher_on_top).

Definition launcher_moved_down : Organised :=
  @organise_layers spec_configure (org_store launcher_focused)
    (org_core launcher_focused) (output_with launcher_on_bottom).

(** ** Output creation *)

(** The signals an output listens to and the handlers it binds to them. *)
Inductive OutputSignal := DestroyEvent | FrameEvent.
Inductive OutputHandler := OnDestroy | OnFrame.

(** The calls [Output.__init__] makes on the backend, the output layout
    and its own listener list. *)
Inductive SetupCall :=
| CallInitRender
| CallSetPreferredMode
| CallEnable
| CallCommit
| CallLayoutAdd (x y : Z)
| CallSceneOutputCreate
| CallAddListener (signal : OutputSignal) (handler : OutputHandler).

(** [Output.__init__], given what it reads: the width of the layout's
    bounding box ([core.output_layout.get_box().width]) and the effective
    resolution the backend reports once the preferred mode is set.  The new
    output goes to the far right of the layout, reserves nothing and has
    four empty buckets. *)
Definition __init__ (layout_width : Z) (resolution : Z * Z) : Output * list SetupCall :=
  let x := layout_width in
  let y := 0 in
  (mkOutput x y resolution (0, 0, 0, 0) (λ _, []),
   [CallInitRender; CallSetPreferredMode; CallEnable; CallCommit;
    CallLayoutAdd x y; CallSceneOutputCreate;
    CallAddListener DestroyEvent OnDestroy; CallAddListener FrameEvent OnFrame]).

(** ** Further vocabulary *)

(** The output's geometry as a rectangle, and a rectangle taken as the
    bounding box of an output. *)
Definition geometry_rect (o : Output) : Rect :=
  let '(x, y, w, h) := get_geometry o in mkRect x y w h.

Definition rect_as_output (rect : Rect) : Output :=
  mkOutput (rect_x rect) (rect_y rect) (rect_width rect, rect_height rect)
    (0, 0, 0, 0) (λ _, []).

(** Rectangle [outer] covers rectangle [inner]. *)
Definition covers (outer inner : Rect) : Prop :=
  rect_x outer ≤ rect_x inner ∧
  rect_x inner + rect_width inner ≤ rect_x outer + rect_width outer ∧
  rect_y outer ≤ rect_y inner ∧
  rect_y inner + rect_height inner ≤ rect_y outer + rect_height outer.

(** Component-wise sum of margins. *)
Definition margins_add (a b : Margins) : Margins :=
  let '(a1, a2, a3, a4) := a in
  let '(b1, b2, b3, b4) := b in
  (a1 + b1, a2 + b2, a3 + b3, a4 + b4).

(** The output with other buckets, and with only the surfaces that
    reserve space left in its buckets. *)
Definition with_layers (o : Output) (ls : LayerShellV1Layer → list WinId) : Output :=
  mkOutput (out_x o) (out_y o) (effective_resolution o) (_reserved_space o) ls.

Definition reserving_only (st : Store) (o : Output) : Output :=
  with_layers o (λ layer, filter (reserves_space st) (layers o layer)).

(** A configure call is given the output-local full area; a place call
    uses the surface's desired size and a border width of 0. *)
Definition configure_in (full_area : Box) (e : Event) : Prop :=
  match e with
  | EvConfigure _ full _ => full = full_area
  | _ => True
  end.

Definition place_as_desired (st : Store) (e : Event) : Prop :=
  match e with
  | EvPlace win _ _ width height borderwidth =>
      width = desired_width (current (st win)) ∧
      height = desired_height (current (st win)) ∧
      borderwidth = 0
  | _ => True
  end.

(** The state a call of [organise_layers] leaves, as the arguments of the
    next call. *)
Definition organise_again `{ScenePlacement} (r : Organised) : Organised :=
  organise_layers (org_store r) (org_core r) (org_output r).

(** ** Geometry queries: properties *)

Lemma contains_false_iff o rect :
  contains o rect = false ↔
  lies_left_of rect o ∨ lies_above rect o ∨ lies_right_of rect o ∨ lies_below rect o.
Proof.
  unfold contains, lies_left_of, lies_above, lies_right_of, lies_below.
  destruct (effective_resolution o) as [ow oh]; simpl.
  destruct (Z.ltb_spec (rect_x rect + rect_width rect) (out_x o));
    [split; [auto | done]|].
  destruct (Z.ltb_spec (rect_y rect + rect_height rect) (out_y o));
    [split; [auto | done]|].
  destruct (Z.ltb_spec (out_x o + ow) (rect_x rect)); [split; [auto | done]|].
  destruct (Z.ltb_spec (out_y o + oh) (rect_y rect)); [split; [auto | done]|].
  split; [done | lia].
Qed.

Lemma contains_true_iff o rect :
  contains o rect = true ↔
  ¬ (lies_left_of rect o ∨ lies_above rect o ∨ lies_right_of rect o ∨ lies_below rect o).
Proof.
  rewrite <- contains_false_iff. destruct (contains o rect); split; congruence.
Qed.

(** C7: [contains] answers [False] exactly when the rectangle lies entirely
    left of, above, right of or below the output's bounding box (position
    and effective resolution), and [True] otherwise.  For an output at x=0
    of width 1920, a rectangle at x=2000 of width 100 gives [False], and a
    rectangle at x=1800 of width 300, not above or below the output, gives
    [True]. *)
Theorem contains_bounding_box (o : Output) (rect : Rect) :
  (contains o rect = false ↔
     lies_left_of rect o ∨ lies_above rect o ∨ lies_right_of rect o ∨ lies_below rect o)
  ∧ (contains o rect = true ↔
     ¬ (lies_left_of rect o ∨ lies_above rect o ∨ lies_right_of rect o ∨ lies_below rect o))
  ∧ (out_x o = 0 → (effective_resolution o).1 = 1920 →
     rect_x rect = 2000 → rect_width rect = 100 → contains o rect = false)
  ∧ (out_x o = 0 → (effective_resolution o).1 = 1920 →
     rect_x rect = 1800 → rect_width rect = 300 →
     ¬ lies_above rect o → ¬ lies_below rect o → contains o rect = true).
Proof.
  split; [apply contains_false_iff|].
  split; [apply contains_true_iff|].
  split.
  - intros Hx Hw Hrx Hrw. apply contains_false_iff.
    right; right; left. unfold lies_right_of. lia.
  - intros Hx Hw Hrx Hrw Ha Hb. apply contains_true_iff.
    unfold lies_left_of, lies_right_of. intros [?|[?|[?|?]]]; try done; lia.
Qed.

Lemma contains_bounding_box_witness :
  contains (output_with no_layers) (mkRect 2000 0 100 100) = false ∧
  contains (output_with no_layers) (mkRect 1800 0 300 100) = true.
Proof.
  pose proof (contains_bounding_box (output_with no_layers) (mkRect 2000 0 100 100))
    as (_ & _ & Hfar & _).
  pose proof (contains_bounding_box (output_with no_layers) (mkRect 1800 0 300 100))
    as (_ & _ & _ & Hnear).
  split.
  - apply Hfar; reflexivity.
  - apply Hnear; try reflexivity; unfold lies_above, lies_below; simpl; lia.
Defined.

(** With extents that are not negative, "entirely left of" is the plain
    geometric notion: every point of the rectangle is left of every point
    of the bounding box, edges included. *)
Lemma lies_left_of_points o rect :
  sizes_nonneg o rect →
  lies_left_of rect o ↔
  ∀ px py qx qy, in_rect rect px py → in_output o qx qy → px < qx.
Proof.
  unfold sizes_nonneg, lies_left_of, in_rect, in_output.
  intros (Hw & Hh & How & Hoh). split.
  - intros Hl px py qx qy [Hpx _] [Hqx _]. lia.
  - intros Hall.
    apply (Hall (rect_x rect + rect_width rect) (rect_y rect) (out_x o) (out_y o)); lia.
Qed.

(** [contains] holds exactly when rectangle and bounding box, edges
    included, share a point. *)
Lemma contains_iff_share_point o rect :
  sizes_nonneg o rect →
  contains o rect = true ↔ ∃ px py, in_rect rect px py ∧ in_output o px py.
Proof.
  intros (Hw & Hh & How & Hoh). rewrite contains_true_iff.
  unfold lies_left_of, lies_above, lies_right_of, lies_below, in_rect, in_output.
  split.
  - intros Hnot.
    exists (Z.max (rect_x rect) (out_x o)), (Z.max (rect_y rect) (out_y o)). lia.
  - intros (px & py & Hr & Ho). lia.
Qed.

(** C9: the comparisons of [contains] are strict on all four sides, so a
    rectangle that only touches the output's boundary (one of its edges on
    the facing edge of the bounding box) is reported as contained, although
    the area it shares with the output is zero and none of its points is
    strictly inside the output. *)
Theorem contains_touching_boundary (o : Output) (rect : Rect) :
  sizes_nonneg o rect →
  touches_boundary o rect →
  contains o rect = true
  ∧ overlap_area o rect = 0
  ∧ ∀ px py, in_rect rect px py → ¬ inside_output o px py.
Proof.
  unfold sizes_nonneg, touches_boundary, meets_vertically, meets_horizontally.
  intros (Hw & Hh & How & Hoh) Htouch. split; [|split].
  - apply contains_true_iff.
    unfold lies_left_of, lies_above, lies_right_of, lies_below. lia.
  - unfold overlap_area, span_overlap.
    destruct Htouch as [[He _]|[[He _]|[[He _]|[He _]]]].
    + rewrite (Z.max_l 0 (Z.min _ _ - Z.max (rect_x rect) _)) by lia. lia.
    + rewrite (Z.max_l 0 (Z.min _ _ - Z.max (rect_x rect) _)) by lia. lia.
    + rewrite (Z.max_l 0 (Z.min _ _ - Z.max (rect_y rect) _)) by lia. lia.
    + rewrite (Z.max_l 0 (Z.min _ _ - Z.max (rect_y rect) _)) by lia. lia.
  - unfold in_rect, inside_output. intros px py Hr Hin. lia.
Qed.

Lemma contains_touching_boundary_witness :
  contains (output_with no_layers) (mkRect (-100) 0 100 100) = true
  ∧ overlap_area (output_with no_layers) (mkRect (-100) 0 100 100) = 0.
Proof.
  assert (Hs : sizes_nonneg (output_with no_layers) (mkRect (-100) 0 100 100))
    by (unfold sizes_nonneg; simpl; lia).
  assert (Ht : touches_boundary (output_with no_layers) (mkRect (-100) 0 100 100))
    by (left; unfold meets_vertically; simpl; lia).
  destruct (contains_touching_boundary _ _ Hs Ht) as (Hc & Ha & _).
  exact (conj Hc Ha).
Defined.

(** ** Screen mapping: properties *)

Lemma screen_matches_spec o s :
  screen_matches (get_geometry o) s = true ↔ geometry_equal o s.
Proof.
  unfold screen_matches, get_geometry, geometry_equal.
  destruct (effective_resolution o) as [w h]; simpl.
  case_bool_decide as Hpos.
  - rewrite bool_decide_eq_true. tauto.
  - split; [done | tauto].
Qed.

Lemma find_screen_first o pre s post :
  (∀ s', s' ∈ pre → ¬ geometry_equal o s') →
  geometry_equal o s →
  find_screen (get_geometry o) (pre ++ s :: post) = Some s.
Proof.
  intros Hpre Hs. induction pre as [|p pre IH]; simpl.
  - apply screen_matches_spec in Hs. by rewrite Hs.
  - destruct (screen_matches (get_geometry o) p) eqn:Hp.
    + apply screen_matches_spec in Hp. destruct (Hpre p); [left | done].
    + apply IH. intros s' Hin. apply Hpre. by right.
Qed.

Lemma find_screen_none o ss :
  (∀ s, s ∈ ss → ¬ geometry_equal o s) →
  find_screen (get_geometry o) ss = None.
Proof.
  induction ss as [|p ss IH]; intros Hall; simpl; [done|].
  destruct (screen_matches (get_geometry o) p) eqn:Hp.
  - apply screen_matches_spec in Hp. destruct (Hall p); [left | done].
  - apply IH. intros s Hin. apply Hall. by right.
Qed.

(** C8: with more than one configured screen, [screen] is the first screen
    whose position and size both equal the output's geometry; when no
    screen matches, or at most one screen is configured, it is the current
    screen. *)
Theorem screen_first_exact_match (c : Core) (o : Output) :
  (∀ pre s post,
     (1 < length (screens (qtile c)))%nat →
     screens (qtile c) = pre ++ s :: post →
     (∀ s', s' ∈ pre → ¬ geometry_equal o s') →
     geometry_equal o s →
     screen c o = s)
  ∧ ((1 < length (screens (qtile c)))%nat →
     (∀ s, s ∈ screens (qtile c) → ¬ geometry_equal o s) →
     screen c o = current_screen (qtile c))
  ∧ ((length (screens (qtile c)) ≤ 1)%nat →
     screen c o = current_screen (qtile c)).
Proof.
  unfold screen. split; [|split].
  - intros pre s post Hlen Hss Hpre Hs.
    rewrite bool_decide_eq_true_2 by done.
    rewrite Hss. by rewrite find_screen_first.
  - intros Hlen Hnone.
    rewrite bool_decide_eq_true_2 by done.
    by rewrite find_screen_none.
  - intros Hlen. rewrite bool_decide_eq_false_2 by lia. done.
Qed.

Lemma screen_first_exact_match_witness :
  screen two_screen_core (right_output no_layers) = second_screen
  ∧ screen two_screen_core (mkOutput 5000 0 (800, 600) (0, 0, 0, 0) no_layers)
    = example_screen
  ∧ screen example_core (right_output no_layers) = example_screen.
Proof.
  split; [|split].
  - apply (proj1 (screen_first_exact_match two_screen_core (right_output no_layers))
             [example_screen] second_screen [twin_screen]).
    + simpl. lia.
    + reflexivity.
    + intros s' Hin. apply list_elem_of_singleton in Hin as ->.
      unfold geometry_equal. simpl. lia.
    + unfold geometry_equal. simpl. lia.
  - apply (proj1 (proj2 (screen_first_exact_match two_screen_core
             (mkOutput 5000 0 (800, 600) (0, 0, 0, 0) no_layers)))).
    + simpl. lia.
    + intros s Hin Hgeo. unfold geometry_equal in Hgeo.
      repeat (apply elem_of_cons in Hin as [-> | Hin]); simpl in Hgeo; try lia.
      by apply elem_of_nil in Hin.
  - apply (proj2 (proj2 (screen_first_exact_match example_core (right_output no_layers)))).
    simpl. lia.
Defined.

(** ** Frame handler: properties *)

(** C6: when the scene-output commit fails with its [RuntimeError] the
    handler returns after the commit attempt and does nothing else: no
    frame-done is sent and no error leaves the handler.  When the commit
    succeeds frame-done is sent exactly once, with the monotonic clock's
    reading.  Frame-done is sent if and only if the commit succeeds. *)
Theorem on_frame_done_iff_commit (commit : CommitOutcome) (now : Timespec) :
  (commit = CommitRaises RuntimeError →
     _on_frame commit now = ([EvSceneCommit], Returns))
  ∧ (commit = CommitOk →
     _on_frame commit now = ([EvSceneCommit; EvSendFrameDone now], Returns))
  ∧ (frame_done_sent (_on_frame commit now).1 = [now] ↔ commit = CommitOk)
  ∧ (frame_done_sent (_on_frame commit now).1 = [] ↔ commit ≠ CommitOk).
Proof.
  split; [intros Hc; by rewrite Hc|]. split; [intros Hc; by rewrite Hc|].
  destruct commit as [|[|]]; simpl; split; split; intros; done.
Qed.

Lemma on_frame_done_iff_commit_witness :
  _on_frame (CommitRaises RuntimeError) example_time = ([EvSceneCommit], Returns)
  ∧ frame_done_sent (_on_frame CommitOk example_time).1 = [example_time].
Proof.
  split.
  - by apply (proj1 (on_frame_done_iff_commit (CommitRaises RuntimeError) example_time)).
  - by apply (proj1 (proj2 (proj2 (on_frame_done_iff_commit CommitOk example_time)))).
Defined.

(** ** Arrangement: the two passes *)

Section arrangement.
Context `{placement : ScenePlacement}.

Lemma pass_eta (p : Pass) : mkPass (pass_store p) (pass_usable p) (pass_trace p) = p.
Proof. by destruct p. Qed.

Lemma organise_layer_app wins1 wins2 full excl st u :
  _organise_layer (wins1 ++ wins2) full excl st u =
  mkPass
    (pass_store (_organise_layer wins2 full excl
       (pass_store (_organise_layer wins1 full excl st u))
       (pass_usable (_organise_layer wins1 full excl st u))))
    (pass_usable (_organise_layer wins2 full excl
       (pass_store (_organise_layer wins1 full excl st u))
       (pass_usable (_organise_layer wins1 full excl st u))))
    (pass_trace (_organise_layer wins1 full excl st u)
     ++ pass_trace (_organise_layer wins2 full excl
          (pass_store (_organise_layer wins1 full excl st u))
          (pass_usable (_organise_layer wins1 full excl st u)))).
Proof.
  revert st u. induction wins1 as [|win wins1 IH]; intros st u; simpl.
  - by rewrite pass_eta.
  - destruct (xorb excl (0 <? exclusive_zone (current (st win)))); [apply IH|].
    rewrite IH. reflexivity.
Qed.

(** Both passes visit the buckets OVERLAY, TOP, BOTTOM, BACKGROUND and each
    bucket in its stacking order. *)
Lemma organise_pass_flat o full excl st u :
  organise_pass reversed_layers o full excl st u
  = _organise_layer (all_surfaces o) full excl st u.
Proof.
  unfold all_surfaces. rewrite !organise_layer_app.
  change reversed_layers with [OVERLAY; TOP; BOTTOM; BACKGROUND].
  simpl. rewrite app_nil_r. reflexivity.
Qed.

(** Arranging moves scene nodes; it never changes a committed state. *)
Lemma organise_layer_current wins full excl st u :
  same_committed (pass_store (_organise_layer wins full excl st u)) st.
Proof.
  revert st u. induction wins as [|win wins IH]; intros st u w; simpl; [done|].
  destruct (xorb excl (0 <? exclusive_zone (current (st win)))); [apply IH|].
  cbn [pass_store]. rewrite IH.
  destruct (decide (win = w)) as [->|Hne].
  - by rewrite fn_lookup_insert.
  - by rewrite fn_lookup_insert_ne.
Qed.

(** The usable area and the calls of a pass depend on the store through
    the committed states only. *)
Lemma organise_layer_ext wins full excl st1 st2 u :
  same_committed st1 st2 →
  pass_usable (_organise_layer wins full excl st1 u)
  = pass_usable (_organise_layer wins full excl st2 u)
  ∧ pass_trace (_organise_layer wins full excl st1 u)
  = pass_trace (_organise_layer wins full excl st2 u).
Proof.
  revert st1 st2 u. induction wins as [|win wins IH]; intros st1 st2 u Hsame; simpl; [done|].
  rewrite (Hsame win).
  destruct (xorb excl (0 <? exclusive_zone (current (st2 win)))); [by apply IH|].
  simpl.
  edestruct (IH (<[win:=mkLayerStatic (current (st2 win))
                     (cfg_node_x (configure (current (st2 win)) full u))
                     (cfg_node_y (configure (current (st2 win)) full u))]> st1)
                (<[win:=mkLayerStatic (current (st2 win))
                     (cfg_node_x (configure (current (st2 win)) full u))
                     (cfg_node_y (configure (current (st2 win)) full u))]> st2)
                (cfg_usable (configure (current (st2 win)) full u))) as [Hu Htr].
  - intros w. destruct (decide (win = w)) as [->|Hne].
    + by rewrite !fn_lookup_insert.
    + rewrite !fn_lookup_insert_ne by done. apply Hsame.
  - rewrite Hu, Htr. done.
Qed.

(** A pass makes no call to the reserved-space sink. *)
Lemma organise_layer_no_reserve wins full excl st u :
  Forall (λ e, is_reserve e = false) (pass_trace (_organise_layer wins full excl st u)).
Proof.
  revert st u. induction wins as [|win wins IH]; intros st u; simpl; [constructor|].
  destruct (xorb excl (0 <? exclusive_zone (current (st win)))); [apply IH|].
  simpl. repeat constructor. apply IH.
Qed.

Lemma before_reserve_app tr1 d s tr2 :
  Forall (λ e, is_reserve e = false) tr1 →
  before_reserve (tr1 ++ EvReserveSpace d s :: tr2) = tr1.
Proof.
  induction 1 as [|e tr1 He _ IH]; simpl; [done|]. by rewrite He, IH.
Qed.

Lemma after_reserve_app tr1 d s tr2 :
  Forall (λ e, is_reserve e = false) tr1 →
  after_reserve (tr1 ++ EvReserveSpace d s :: tr2) = tr2.
Proof.
  induction 1 as [|e tr1 He _ IH]; simpl; [done|]. by rewrite He.
Qed.

(** The exclusive pass configures and places exactly the surfaces that
    reserve space, in traversal order. *)
Lemma exclusive_pass_wins wins full st st' u :
  same_committed st' st →
  configured_wins (pass_trace (_organise_layer wins full true st' u))
  = filter (reserves_space st) wins
  ∧ placed_wins (pass_trace (_organise_layer wins full true st' u))
  = filter (reserves_space st) wins.
Proof.
  revert st' u. induction wins as [|win wins IH]; intros st' u Hsame; simpl; [done|].
  rewrite (Hsame win), filter_cons.
  destruct (decide (reserves_space st win)) as [Hr|Hr]; unfold reserves_space in Hr.
  - rewrite (proj2 (Z.ltb_lt _ _) Hr). simpl.
    edestruct IH as [-> ->]; [|done].
    intros w. destruct (decide (win = w)) as [->|Hne].
    + by rewrite fn_lookup_insert.
    + by rewrite fn_lookup_insert_ne.
  - rewrite (proj2 (Z.ltb_ge _ _)) by lia. simpl. by apply IH.
Qed.

(** The non-exclusive pass configures and places exactly the surfaces that
    reserve no space.  When the placement leaves the usable area alone for
    such surfaces, every one of them is configured against the usable area
    the pass started with. *)
Lemma non_exclusive_pass_wins wins full st st' u :
  same_committed st' st →
  configured_wins (pass_trace (_organise_layer wins full false st' u))
  = filter (λ win, ¬ reserves_space st win) wins
  ∧ placed_wins (pass_trace (_organise_layer wins full false st' u))
  = filter (λ win, ¬ reserves_space st win) wins.
Proof.
  revert st' u. induction wins as [|win wins IH]; intros st' u Hsame; simpl; [done|].
  rewrite (Hsame win), filter_cons.
  destruct (decide (¬ reserves_space st win)) as [Hr|Hr]; unfold reserves_space in Hr.
  - rewrite (proj2 (Z.ltb_ge _ _)) by lia. simpl.
    edestruct IH as [-> ->]; [|done].
    intros w. destruct (decide (win = w)) as [->|Hne].
    + by rewrite fn_lookup_insert.
    + by rewrite fn_lookup_insert_ne.
  - rewrite (proj2 (Z.ltb_lt _ _)) by lia. simpl. by apply IH.
Qed.

Lemma non_exclusive_pass_usable wins full st u :
  (∀ state full' u', exclusive_zone state ≤ 0 →
     cfg_usable (configure state full' u') = u') →
  pass_usable (_organise_layer wins full false st u) = u
  ∧ Forall (λ b, b = u)
      (configured_against (pass_trace (_organise_layer wins full false st u))).
Proof.
  intros Hkeep. revert st.
  induction wins as [|win wins IH]; intros st; simpl; [by split|].
  destruct (0 <? exclusive_zone (current (st win))) eqn:Hz; simpl; [apply IH|].
  apply Z.ltb_ge in Hz. rewrite Hkeep by done.
  split; [apply IH|]. constructor; [done | apply IH].
Qed.

(** ** Arrangement: the focus scan *)

Lemma first_exclusive_ext st1 st2 wins :
  same_committed st1 st2 → first_exclusive st1 wins = first_exclusive st2 wins.
Proof.
  intros Hsame. induction wins as [|win wins IH]; simpl; [done|].
  rewrite IH. pose proof (Hsame win) as Hwin.
  repeat case_decide; unfold wants_exclusive in *; congruence.
Qed.

Lemma first_exclusive_app st wins1 wins2 :
  first_exclusive st (wins1 ++ wins2) =
  match first_exclusive st wins1 with
  | Some win => Some win
  | None => first_exclusive st wins2
  end.
Proof.
  induction wins1 as [|win wins1 IH]; simpl; [done|]. by case_decide.
Qed.

(** The first surface wanting exclusive focus is preceded only by surfaces
    that do not want it. *)
Lemma first_exclusive_Some st wins win :
  first_exclusive st wins = Some win ↔
  ∃ pre post, wins = pre ++ win :: post ∧ wants_exclusive st win ∧
              ∀ v, v ∈ pre → ¬ wants_exclusive st v.
Proof.
  split.
  - revert win. induction wins as [|w wins IH]; intros win; simpl; [done|].
    case_decide as Hw.
    + intros [= <-]. exists [], wins. split; [done|]. split; [done|].
      intros v Hv. by apply elem_of_nil in Hv.
    + intros Hfirst. destruct (IH _ Hfirst) as (pre & post & -> & Hwin & Hpre).
      exists (w :: pre), post. split; [done|]. split; [done|].
      intros v [->|Hv]%elem_of_cons; auto.
  - intros (pre & post & -> & Hwin & Hpre).
    induction pre as [|w pre IH]; simpl.
    + by rewrite decide_True.
    + rewrite decide_False by (apply Hpre; left). apply IH.
      intros v Hv. apply Hpre. by right.
Qed.

Lemma first_exclusive_None st wins :
  first_exclusive st wins = None ↔ ∀ v, v ∈ wins → ¬ wants_exclusive st v.
Proof.
  induction wins as [|w wins IH]; simpl.
  - split; [|done]. intros _ v Hv. by apply elem_of_nil in Hv.
  - case_decide as Hw.
    + split; [done|]. intros Hall. destruct (Hall w); [left | done].
    + rewrite IH. split.
      * intros Hall v [->|Hv]%elem_of_cons; auto.
      * intros Hall v Hv. apply Hall. by right.
Qed.

(** What the inner loop of the scan does, in closed form. *)
Lemma focus_scan_layer_spec st wins c :
  focus_scan_layer st wins c =
  (bool_decide (is_Some (first_exclusive st wins)),
   mkCore (holder_after st wins (exclusive_layer c)) (qtile c),
   focus_requests st wins).
Proof.
  unfold holder_after, focus_requests.
  revert c. induction wins as [|win wins IH]; intros [holder q]; simpl.
  - by destruct holder.
  - destruct (decide (wants_exclusive st win)) as [Hw|Hw].
    { by rewrite decide_True by exact Hw. }
    rewrite decide_False by exact Hw.
    case_decide as Hh; simpl in Hh.
    + subst holder. rewrite IH. simpl.
      destruct (first_exclusive st wins); [done|].
      rewrite decide_True; [done | left].
    + rewrite IH. simpl.
      destruct (first_exclusive st wins); [done|].
      destruct holder as [h|]; [|done].
      destruct (decide (h ∈ wins)) as [Hin|Hin].
      * rewrite decide_True; [done | by right].
      * rewrite decide_False; [done|].
        intros [->|?]%elem_of_cons; done.
Qed.

Lemma holder_after_ext st1 st2 wins holder :
  same_committed st1 st2 → holder_after st1 wins holder = holder_after st2 wins holder.
Proof. intros Hsame. unfold holder_after. by rewrite (first_exclusive_ext st1 st2). Qed.

Lemma focus_requests_ext st1 st2 wins :
  same_committed st1 st2 → focus_requests st1 wins = focus_requests st2 wins.
Proof. intros Hsame. unfold focus_requests. by rewrite (first_exclusive_ext st1 st2). Qed.

(** The scan of OVERLAY and then TOP is one scan of the two buckets in a
    row: the [return] leaves both loops. *)
Lemma focus_scan_spec st o c :
  focus_scan st [OVERLAY; TOP] o c =
  (mkCore (holder_after st (scanned_surfaces o) (exclusive_layer c)) (qtile c),
   focus_requests st (scanned_surfaces o)).
Proof.
  simpl. rewrite !focus_scan_layer_spec.
  unfold holder_after, focus_requests, scanned_surfaces. simpl.
  rewrite first_exclusive_app.
  destruct (first_exclusive st (layers o OVERLAY)) as [a|]; simpl; [done|].
  destruct (first_exclusive st (layers o TOP)) as [b|]; simpl; [done|].
  destruct (exclusive_layer c) as [h|]; [|done].
  destruct (decide (h ∈ layers o OVERLAY)) as [Ho|Ho].
  - rewrite decide_True; [done | apply elem_of_app; by left].
  - destruct (decide (h ∈ layers o TOP)) as [Ht|Ht].
    + rewrite decide_True; [done | apply elem_of_app; by right].
    + rewrite decide_False; [done|]. intros [?|?]%elem_of_app; done.
Qed.

(** ** [organise_layers], field by field *)

Lemma organise_layers_store st c o :
  same_committed (org_store (organise_layers st c o)) st.
Proof.
  unfold organise_layers. destruct (effective_resolution o) as [ow oh].
  rewrite focus_scan_spec, !organise_pass_flat. cbn [org_store].
  intros w. by rewrite !organise_layer_current.
Qed.

Lemma organise_layers_core st c o :
  org_core (organise_layers st c o)
  = mkCore (holder_after st (scanned_surfaces o) (exclusive_layer c)) (qtile c).
Proof.
  unfold organise_layers. destruct (effective_resolution o) as [ow oh].
  rewrite focus_scan_spec, !organise_pass_flat. cbn [org_core]. f_equal.
  apply holder_after_ext.
  intros w. by rewrite !organise_layer_current.
Qed.

Lemma organise_layers_output st c o :
  org_output (organise_layers st c o)
  = mkOutput (out_x o) (out_y o) (effective_resolution o)
      (reserved_space_of (effective_resolution o).1 (effective_resolution o).2
         (final_usable_area st o))
      (layers o).
Proof.
  unfold organise_layers, final_usable_area.
  destruct (effective_resolution o) as [ow oh].
  rewrite focus_scan_spec. reflexivity.
Qed.

Lemma organise_layers_trace st c o :
  org_trace (organise_layers st c o)
  = pass_trace (_organise_layer (all_surfaces o)
      (mkBox 0 0 (effective_resolution o).1 (effective_resolution o).2) true st
      (mkBox 0 0 (effective_resolution o).1 (effective_resolution o).2))
    ++ EvReserveSpace
         (margins_sub
            (reserved_space_of (effective_resolution o).1 (effective_resolution o).2
               (final_usable_area st o))
            (_reserved_space o))
         (screen c o)
    :: pass_trace (_organise_layer (all_surfaces o)
         (mkBox 0 0 (effective_resolution o).1 (effective_resolution o).2) false st
         (final_usable_area st o))
    ++ focus_requests st (scanned_surfaces o).
Proof.
  unfold organise_layers, final_usable_area.
  destruct (effective_resolution o) as [ow oh].
  rewrite focus_scan_spec, !organise_pass_flat. cbn [org_trace fst snd].
  f_equal. f_equal. f_equal.
  - apply organise_layer_ext. intros w. apply organise_layer_current.
  - apply focus_requests_ext. intros w. by rewrite !organise_layer_current.
Qed.

Lemma focus_requests_no_arrangement st wins :
  configured_wins (focus_requests st wins) = []
  ∧ placed_wins (focus_requests st wins) = []
  ∧ configured_against (focus_requests st wins) = [].
Proof. unfold focus_requests. by destruct (first_exclusive st wins). Qed.

Lemma pass_trace_only_arranges wins full excl st u :
  reported_deltas (pass_trace (_organise_layer wins full excl st u)) = []
  ∧ focused_wins (pass_trace (_organise_layer wins full excl st u)) = [].
Proof.
  revert st u. induction wins as [|win wins IH]; intros st u; simpl; [done|].
  destruct (xorb excl (0 <? exclusive_zone (current (st win)))); apply IH.
Qed.

Lemma reported_deltas_app tr1 tr2 :
  reported_deltas (tr1 ++ tr2) = reported_deltas tr1 ++ reported_deltas tr2.
Proof. apply omap_app. Qed.

Lemma reported_deltas_reserve d s tr :
  reported_deltas (EvReserveSpace d s :: tr) = (d, s) :: reported_deltas tr.
Proof. reflexivity. Qed.

Lemma focused_wins_app tr1 tr2 :
  focused_wins (tr1 ++ tr2) = focused_wins tr1 ++ focused_wins tr2.
Proof. apply omap_app. Qed.

Lemma focused_wins_reserve d s tr :
  focused_wins (EvReserveSpace d s :: tr) = focused_wins tr.
Proof. reflexivity. Qed.

Lemma margins_sub_diag (m : Margins) : margins_sub m m = (0, 0, 0, 0).
Proof. destruct m as [[[a b] d] e]. unfold margins_sub. repeat f_equal; lia. Qed.

Lemma final_usable_area_ext st1 st2 o1 o2 :
  same_committed st1 st2 →
  effective_resolution o1 = effective_resolution o2 →
  layers o1 = layers o2 →
  final_usable_area st1 o1 = final_usable_area st2 o2.
Proof.
  intros Hsame Hres Hlayers. unfold final_usable_area. rewrite Hres.
  destruct (effective_resolution o2) as [ow oh].
  rewrite !organise_pass_flat. unfold all_surfaces. rewrite Hlayers.
  by apply organise_layer_ext.
Qed.

(** C2: the exclusive pass, over OVERLAY, TOP, BOTTOM, BACKGROUND and each
    bucket in stacking order, configures (and places) exactly the surfaces
    whose committed exclusive zone is positive; all of that happens before
    the report to the reserved-space sink, and every surface with a zone
    <= 0 is configured and placed after it, so after every exclusive
    surface.  The second pass handles exactly the surfaces with zone <= 0
    and, the placement leaving the usable area alone for such surfaces,
    each of them is configured against the final usable area. *)
Theorem organise_layers_two_passes (st : Store) (c : Core) (o : Output) :
  org_trace (organise_layers st c o)
  = before_reserve (org_trace (organise_layers st c o))
    ++ EvReserveSpace
         (margins_sub (_reserved_space (org_output (organise_layers st c o)))
            (_reserved_space o))
         (screen c o)
    :: after_reserve (org_trace (organise_layers st c o))
  ∧ configured_wins (before_reserve (org_trace (organise_layers st c o)))
    = filter (reserves_space st) (all_surfaces o)
  ∧ placed_wins (before_reserve (org_trace (organise_layers st c o)))
    = filter (reserves_space st) (all_surfaces o)
  ∧ configured_wins (after_reserve (org_trace (organise_layers st c o)))
    = filter (λ win, ¬ reserves_space st win) (all_surfaces o)
  ∧ placed_wins (after_reserve (org_trace (organise_layers st c o)))
    = filter (λ win, ¬ reserves_space st win) (all_surfaces o)
  ∧ ((∀ state full u, exclusive_zone state ≤ 0 →
        cfg_usable (configure state full u) = u) →
     Forall (λ u, u = final_usable_area st o)
       (configured_against (after_reserve (org_trace (organise_layers st c o))))).
Proof.
  rewrite organise_layers_output. cbn [_reserved_space].
  rewrite organise_layers_trace.
  rewrite before_reserve_app, after_reserve_app by apply organise_layer_no_reserve.
  split; [done|].
  destruct (exclusive_pass_wins (all_surfaces o)
    (mkBox 0 0 (effective_resolution o).1 (effective_resolution o).2) st st
    (mkBox 0 0 (effective_resolution o).1 (effective_resolution o).2)) as [Hc Hp]; [done|].
  destruct (non_exclusive_pass_wins (all_surfaces o)
    (mkBox 0 0 (effective_resolution o).1 (effective_resolution o).2) st st
    (final_usable_area st o)) as [Hc' Hp']; [done|].
  destruct (focus_requests_no_arrangement st (scanned_surfaces o)) as (Hf1 & Hf2 & Hf3).
  split; [done|]. split; [done|].
  unfold configured_wins, placed_wins, configured_against in *.
  rewrite !omap_app, Hf1, Hf2, Hf3, !app_nil_r.
  split; [done|]. split; [done|].
  intros Hkeep. by apply non_exclusive_pass_usable.
Qed.

(** C3: when [organise_layers] runs again on the output it left, with no
    committed surface state and no resolution changed in between, the delta
    it reports to the reserved-space sink is (0,0,0,0): the first call
    stored the reserved space the second one computes again. *)
Theorem organise_layers_idempotent_delta (st st2 : Store) (c c2 : Core) (o : Output) :
  same_committed st2 (org_store (organise_layers st c o)) →
  _reserved_space (org_output (organise_layers st c o))
  = reserved_space_of (effective_resolution o).1 (effective_resolution o).2
      (final_usable_area st o)
  ∧ reported_deltas (org_trace
      (organise_layers st2 c2 (org_output (organise_layers st c o))))
    = [((0, 0, 0, 0), screen c2 (org_output (organise_layers st c o)))].
Proof.
  intros Hsame. rewrite organise_layers_output. split; [done|].
  rewrite organise_layers_trace. cbn [effective_resolution _reserved_space].
  rewrite reported_deltas_app, reported_deltas_reserve, reported_deltas_app.
  rewrite (proj1 (pass_trace_only_arranges _ _ _ _ _)).
  rewrite (proj1 (pass_trace_only_arranges _ _ _ _ _)).
  assert (Hfocus : ∀ wins, reported_deltas (focus_requests st2 wins) = []).
  { intros wins. unfold focus_requests. by destruct (first_exclusive st2 wins). }
  rewrite Hfocus. cbn [app].
  rewrite (final_usable_area_ext st2 st _ o); [by rewrite margins_sub_diag| |done|done].
  intros w. rewrite Hsame. apply organise_layers_store.
Qed.

(** ** The exclusive focus holder *)

Lemma first_exclusive_elem st wins win :
  first_exclusive st wins = Some win → win ∈ wins ∧ wants_exclusive st win.
Proof.
  intros (pre & post & -> & Hwin & _)%first_exclusive_Some. split; [|done].
  apply elem_of_app. right. left.
Qed.

(** The three outcomes of a scan. *)
Lemma holder_after_cases st wins holder :
  holder_after st wins holder = None
  ∨ (∃ win, holder_after st wins holder = Some win ∧ win ∈ wins ∧ wants_exclusive st win)
  ∨ (∃ win, holder_after st wins holder = Some win ∧ (win ∉ wins) ∧
            holder = Some win ∧ first_exclusive st wins = None).
Proof.
  unfold holder_after.
  destruct (first_exclusive st wins) as [a|] eqn:Hfirst.
  - right; left. exists a. split; [done|]. by apply first_exclusive_elem.
  - destruct holder as [h|]; [|by left].
    destruct (decide (h ∈ wins)); [by left|].
    right; right. by exists h.
Qed.

Lemma organise_layers_layers st c o :
  layers (org_output (organise_layers st c o)) = layers o.
Proof. by rewrite organise_layers_output. Qed.

Lemma wants_exclusive_ext st1 st2 win :
  same_committed st1 st2 → wants_exclusive st1 win ↔ wants_exclusive st2 win.
Proof. intros Hsame. unfold wants_exclusive. by rewrite (Hsame win). Qed.

(** C1, as the code has it: after every call of [organise_layers] exactly
    one of three holds.  The holder is null; or it is a surface now in the
    OVERLAY or TOP bucket whose committed keyboard interactivity is
    EXCLUSIVE; or it is the holder from before the call, left untouched
    because it is in neither scanned bucket while no scanned surface wants
    exclusive focus.  The third case cannot arise when the holder before
    the call was null or in a scanned bucket, or when some scanned surface
    wants exclusive focus. *)
Theorem organise_layers_holder_state (st : Store) (c : Core) (o : Output) :
  let r := organise_layers st c o in
  (holder_none (org_core r)
   ∨ holder_exclusive_on (org_store r) (org_output r) (org_core r)
   ∨ (holder_unscanned (org_output r) (org_core r)
      ∧ exclusive_layer (org_core r) = exclusive_layer c
      ∧ first_exclusive (org_store r) (scanned_surfaces (org_output r)) = None))
  ∧ ¬ (holder_none (org_core r)
       ∧ holder_exclusive_on (org_store r) (org_output r) (org_core r))
  ∧ ¬ (holder_none (org_core r) ∧ holder_unscanned (org_output r) (org_core r))
  ∧ ¬ (holder_exclusive_on (org_store r) (org_output r) (org_core r)
       ∧ holder_unscanned (org_output r) (org_core r))
  ∧ (exclusive_layer c = None
     ∨ (∃ h, exclusive_layer c = Some h ∧ h ∈ scanned_surfaces o)
     ∨ (∃ v, v ∈ scanned_surfaces o ∧ wants_exclusive st v) →
     holder_none (org_core r)
     ∨ holder_exclusive_on (org_store r) (org_output r) (org_core r)).
Proof.
  intros r.
  assert (Hscan : scanned_surfaces (org_output r) = scanned_surfaces o).
  { unfold scanned_surfaces, r. by rewrite organise_layers_layers. }
  assert (Hsame : same_committed (org_store r) st) by apply organise_layers_store.
  assert (Hcore : exclusive_layer (org_core r)
                  = holder_after st (scanned_surfaces o) (exclusive_layer c)).
  { unfold r. by rewrite organise_layers_core. }
  unfold holder_none, holder_exclusive_on, holder_unscanned.
  rewrite Hscan, Hcore, (first_exclusive_ext _ _ _ Hsame).
  destruct (holder_after_cases st (scanned_surfaces o) (exclusive_layer c))
    as [Hn|[(a & Ha & Hin & Hwant)|(a & Ha & Hnin & Hold & Hfirst)]].
  - rewrite Hn. split; [by left|].
    split; [|split; [|split]].
    + by intros (_ & a & ? & _).
    + by intros (_ & a & ? & _).
    + by intros ((a & ? & _) & _).
    + by left.
  - rewrite Ha. split.
    { right; left. exists a. split; [done|]. split; [done|].
      by apply (wants_exclusive_ext _ _ _ Hsame). }
    split; [by intros (? & _)|]. split; [by intros (? & _)|]. split.
    + intros (_ & b & [= <-] & Hb). done.
    + intros _. right. exists a. split; [done|]. split; [done|].
      by apply (wants_exclusive_ext _ _ _ Hsame).
  - rewrite Ha. split.
    { right; right. split; [by exists a|]. by rewrite Hold. }
    split; [by intros (? & _)|]. split; [by intros (? & _)|]. split.
    + intros ((b & [= <-] & Hb & _) & _). done.
    + intros [Hnone|[(h & Hh & Hin)|(v & Hv & Hwant)]].
      * congruence.
      * rewrite Hold in Hh. injection Hh as <-. done.
      * apply first_exclusive_None with (v := v) in Hfirst; done.
Qed.

(** C5: the first surface in scan order (OVERLAY before TOP, earlier
    before later within a bucket) whose committed keyboard interactivity is
    EXCLUSIVE becomes the holder; focus is requested for it, once, as the
    last call; and the scan is the scan of the surfaces up to and including
    it, so no later surface is visited. *)
Theorem organise_layers_first_exclusive_wins
    (st : Store) (c : Core) (o : Output) (pre post : list WinId) (win : WinId) :
  scanned_surfaces o = pre ++ win :: post →
  (∀ v, v ∈ pre → ¬ wants_exclusive st v) →
  wants_exclusive st win →
  exclusive_layer (org_core (organise_layers st c o)) = Some win
  ∧ focused_wins (org_trace (organise_layers st c o)) = [win]
  ∧ (∃ tr, org_trace (organise_layers st c o) = tr ++ [EvFocusWindow win])
  ∧ focus_scan (org_store (organise_layers st c o)) [OVERLAY; TOP] o c
    = (let '(_, c', tr) :=
         focus_scan_layer (org_store (organise_layers st c o)) (pre ++ [win]) c
       in (c', tr)).
Proof.
  intros Hscan Hpre Hwin.
  assert (Hfirst : first_exclusive st (scanned_surfaces o) = Some win).
  { apply first_exclusive_Some. by exists pre, post. }
  assert (Hcut : first_exclusive st (pre ++ [win]) = Some win).
  { apply first_exclusive_Some. exists pre, []. done. }
  assert (Hsame : same_committed (org_store (organise_layers st c o)) st)
    by apply organise_layers_store.
  split; [|split; [|split]].
  - rewrite organise_layers_core. unfold holder_after. by rewrite Hfirst.
  - rewrite organise_layers_trace.
    rewrite focused_wins_app, focused_wins_reserve, focused_wins_app.
    rewrite !(proj2 (pass_trace_only_arranges _ _ _ _ _)).
    unfold focus_requests. by rewrite Hfirst.
  - rewrite organise_layers_trace. unfold focus_requests. rewrite Hfirst.
    rewrite app_comm_cons, app_assoc. by eexists.
  - rewrite focus_scan_spec, focus_scan_layer_spec.
    unfold holder_after, focus_requests.
    rewrite !(first_exclusive_ext _ _ _ Hsame), Hfirst, Hcut. done.
Qed.

(** ** One holder for all outputs *)

Lemma organise_layers_at_core i w o :
  comp_outputs w !! i = Some o →
  exclusive_layer (comp_core (organise_layers_at i w).1)
  = holder_after (comp_store w) (scanned_surfaces o) (exclusive_layer (comp_core w))
  ∧ qtile (comp_core (organise_layers_at i w).1) = qtile (comp_core w).
Proof.
  intros Hi. unfold organise_layers_at. rewrite Hi. cbn [fst comp_core].
  by rewrite organise_layers_core.
Qed.

Lemma organise_layers_at_store i w :
  same_committed (comp_store (organise_layers_at i w).1) (comp_store w).
Proof.
  unfold organise_layers_at. destruct (comp_outputs w !! i) as [o|]; [|done].
  cbn [fst comp_store]. apply organise_layers_store.
Qed.

(** A call on one output leaves every other output as it was. *)
Lemma organise_layers_at_other i j w :
  i ≠ j →
  comp_outputs (organise_layers_at i w).1 !! j = comp_outputs w !! j.
Proof.
  intros Hne. unfold organise_layers_at.
  destruct (comp_outputs w !! i) as [o|]; [|done].
  cbn [fst comp_outputs]. by apply list_lookup_insert_ne.
Qed.

(** C10: the holder is one field of the core, shared by all outputs.  For
    two distinct outputs i and j: the scan on i records its first
    EXCLUSIVE surface in that field; the scan on j then starts from this
    very value.  It keeps it when j has nothing to say about it, overwrites
    it with j's own first EXCLUSIVE surface, and clears it when it meets
    the holder among j's scanned surfaces without any of them wanting
    exclusive focus. *)
Theorem exclusive_layer_shared_by_outputs
    (w : Compositor) (i j : nat) (oi oj : Output) (a : WinId) :
  i ≠ j →
  comp_outputs w !! i = Some oi →
  comp_outputs w !! j = Some oj →
  first_exclusive (comp_store w) (scanned_surfaces oi) = Some a →
  let w1 := (organise_layers_at i w).1 in
  exclusive_layer (comp_core w1) = Some a
  ∧ (first_exclusive (comp_store w) (scanned_surfaces oj) = None →
     a ∉ scanned_surfaces oj →
     exclusive_layer (comp_core (organise_layers_at j w1).1) = Some a)
  ∧ (∀ b, first_exclusive (comp_store w) (scanned_surfaces oj) = Some b →
     exclusive_layer (comp_core (organise_layers_at j w1).1) = Some b)
  ∧ (∀ w2 oj2,
       comp_core w2 = comp_core w1 →
       comp_outputs w2 !! j = Some oj2 →
       a ∈ scanned_surfaces oj2 →
       first_exclusive (comp_store w2) (scanned_surfaces oj2) = None →
       exclusive_layer (comp_core (organise_layers_at j w2).1) = None).
Proof.
  intros Hij Hi Hj Ha w1.
  assert (Hholder : exclusive_layer (comp_core w1) = Some a).
  { unfold w1. rewrite (proj1 (organise_layers_at_core i w oi Hi)).
    unfold holder_after. by rewrite Ha. }
  assert (Hj1 : comp_outputs w1 !! j = Some oj).
  { unfold w1. by rewrite organise_layers_at_other. }
  assert (Hsame : same_committed (comp_store w1) (comp_store w))
    by apply organise_layers_at_store.
  split; [done|]. split; [|split].
  - intros Hnone Hnin.
    rewrite (proj1 (organise_layers_at_core j w1 oj Hj1)), Hholder.
    unfold holder_after. rewrite (first_exclusive_ext _ _ _ Hsame), Hnone.
    by rewrite decide_False.
  - intros b Hb.
    rewrite (proj1 (organise_layers_at_core j w1 oj Hj1)).
    unfold holder_after. by rewrite (first_exclusive_ext _ _ _ Hsame), Hb.
  - intros w2 oj2 Hcore Hj2 Hin Hnone.
    rewrite (proj1 (organise_layers_at_core j w2 oj2 Hj2)), Hcore, Hholder.
    unfold holder_after. rewrite Hnone. by rewrite decide_True.
Qed.

(** ** Reserved space *)

Lemma organise_layer_cons_usable win wins full excl st u :
  pass_usable (_organise_layer (win :: wins) full excl st u)
  = if xorb excl (0 <? exclusive_zone (current (st win))) then
      pass_usable (_organise_layer wins full excl st u)
    else
      pass_usable (_organise_layer wins full excl
        (<[win := mkLayerStatic (current (st win))
                    (cfg_node_x (configure (current (st win)) full u))
                    (cfg_node_y (configure (current (st win)) full u))]> st)
        (cfg_usable (configure (current (st win)) full u))).
Proof.
  simpl. by destruct (xorb excl (0 <? exclusive_zone (current (st win)))).
Qed.

(** The reserved space is bounded exactly when the usable area it is read
    off is a box inside the full area. *)
Lemma margins_bounded_iff_usable_within ow oh u :
  margins_bounded ow oh (reserved_space_of ow oh u) ↔ usable_within ow oh u.
Proof. unfold margins_bounded, reserved_space_of, usable_within. lia. Qed.

(** Scenario A, for any placement: without surfaces nothing is reserved. *)
Lemma organise_layers_no_surfaces st c o :
  (∀ layer, layers o layer = []) →
  _reserved_space (org_output (organise_layers st c o)) = (0, 0, 0, 0).
Proof.
  intros Hempty. rewrite organise_layers_output. cbn [_reserved_space].
  unfold final_usable_area. destruct (effective_resolution o) as [ow oh].
  rewrite organise_pass_flat. unfold all_surfaces. rewrite !Hempty. simpl.
  unfold reserved_space_of. simpl. repeat f_equal; lia.
Qed.

End arrangement.

(** ** Reserved space under the described placement *)

Lemma zone_on_cons e st win wins :
  zone_on e st (win :: wins)
  = (if 0 <? exclusive_zone (current (st win)) then
       match e, anchor (current (st win)) with
       | EdgeTop, EdgeTop | EdgeBottom, EdgeBottom
       | EdgeLeft, EdgeLeft | EdgeRight, EdgeRight =>
           exclusive_zone (current (st win))
       | _, _ => 0
       end
     else 0) + zone_on e st wins.
Proof. reflexivity. Qed.

Lemma zone_on_nonneg e st wins : 0 ≤ zone_on e st wins.
Proof.
  induction wins as [|win wins IH]; [done|]. rewrite zone_on_cons.
  destruct (0 <? exclusive_zone (current (st win))) eqn:Hz; [|lia].
  apply Z.ltb_lt in Hz.
  destruct e, (anchor (current (st win))); lia.
Qed.

Lemma spec_configure_usable state full u :
  cfg_usable (@configure spec_configure state full u)
  = if 0 <? exclusive_zone state then shrink_usable state u else u.
Proof.
  unfold configure, spec_configure. destruct u, (anchor state); reflexivity.
Qed.

(** The exclusive pass moves each edge of the usable area inwards by the
    total zone reserved on that edge. *)
Lemma spec_exclusive_pass_usable wins full st st' x y w h :
  same_committed st' st →
  pass_usable (@_organise_layer spec_configure wins full true st' (mkBox x y w h))
  = mkBox (x + zone_on EdgeLeft st wins) (y + zone_on EdgeTop st wins)
      (w - zone_on EdgeLeft st wins - zone_on EdgeRight st wins)
      (h - zone_on EdgeTop st wins - zone_on EdgeBottom st wins).
Proof.
  revert st' x y w h.
  induction wins as [|win wins IH]; intros st' x y w h Hsame.
  - simpl. f_equal; lia.
  - rewrite !zone_on_cons, organise_layer_cons_usable, (Hsame win).
    destruct (0 <? exclusive_zone (current (st win))) eqn:Hz; cbn [xorb negb].
    + assert (Hsame' : ∀ nx ny, same_committed
                (<[win:=mkLayerStatic (current (st win)) nx ny]> st') st).
      { intros nx ny v. destruct (decide (win = v)) as [->|Hne].
        - by rewrite fn_lookup_insert.
        - rewrite fn_lookup_insert_ne by done. apply Hsame. }
      rewrite spec_configure_usable, Hz. unfold shrink_usable.
      destruct (anchor (current (st win)));
        rewrite IH by apply Hsame'; f_equal; lia.
    + rewrite IH by done. f_equal; lia.
Qed.

Lemma spec_reserved_space st c o :
  _reserved_space (org_output (@organise_layers spec_configure st c o))
  = (zone_on EdgeLeft st (all_surfaces o), zone_on EdgeRight st (all_surfaces o),
     zone_on EdgeTop st (all_surfaces o), zone_on EdgeBottom st (all_surfaces o)).
Proof.
  rewrite organise_layers_output. cbn [_reserved_space].
  unfold final_usable_area. destruct (effective_resolution o) as [ow oh].
  rewrite organise_pass_flat, (spec_exclusive_pass_usable _ _ st) by done.
  unfold reserved_space_of. simpl. repeat f_equal; lia.
Qed.

(** C4, as the code has it under the described placement: every margin is
    >= 0 and equals the total exclusive zone reserved on its edge; left +
    right <= effective width and top + bottom <= effective height hold
    when the zones reserved left and right total at most the width and
    those reserved top and bottom at most the height; with no surface on
    any layer the margins are exactly (0,0,0,0). *)
Theorem spec_margins_bounded (st : Store) (c : Core) (o : Output) :
  _reserved_space (org_output (@organise_layers spec_configure st c o))
  = (zone_on EdgeLeft st (all_surfaces o), zone_on EdgeRight st (all_surfaces o),
     zone_on EdgeTop st (all_surfaces o), zone_on EdgeBottom st (all_surfaces o))
  ∧ 0 ≤ zone_on EdgeLeft st (all_surfaces o)
  ∧ 0 ≤ zone_on EdgeRight st (all_surfaces o)
  ∧ 0 ≤ zone_on EdgeTop st (all_surfaces o)
  ∧ 0 ≤ zone_on EdgeBottom st (all_surfaces o)
  ∧ (zone_on EdgeLeft st (all_surfaces o) + zone_on EdgeRight st (all_surfaces o)
       ≤ (effective_resolution o).1 →
     zone_on EdgeTop st (all_surfaces o) + zone_on EdgeBottom st (all_surfaces o)
       ≤ (effective_resolution o).2 →
     margins_bounded (effective_resolution o).1 (effective_resolution o).2
       (_reserved_space (org_output (@organise_layers spec_configure st c o))))
  ∧ ((∀ layer, layers o layer = []) →
     _reserved_space (org_output (@organise_layers spec_configure st c o))
     = (0, 0, 0, 0)).
Proof.
  split; [apply spec_reserved_space|].
  repeat (split; [apply zone_on_nonneg|]).
  split.
  - intros Hh Hv. rewrite spec_reserved_space. unfold margins_bounded.
    pose proof (zone_on_nonneg EdgeLeft st (all_surfaces o)).
    pose proof (zone_on_nonneg EdgeRight st (all_surfaces o)).
    pose proof (zone_on_nonneg EdgeTop st (all_surfaces o)).
    pose proof (zone_on_nonneg EdgeBottom st (all_surfaces o)).
    lia.
  - apply organise_layers_no_surfaces.
Qed.

(** ** The properties on the example scenarios *)

Lemma spec_configure_keeps_usable state full u :
  exclusive_zone state ≤ 0 → cfg_usable (@configure spec_configure state full u) = u.
Proof.
  intros Hz. rewrite spec_configure_usable.
  by rewrite (proj2 (Z.ltb_ge _ _)) by lia.
Qed.

(** Scenario B: the panel is arranged in the first pass, the wallpaper in
    the second, against the usable area the panel left. *)
Lemma organise_layers_two_passes_witness :
  configured_wins (before_reserve (org_trace
    (@organise_layers spec_configure example_store example_core
       (output_with scenario_b_layers)))) = [1%nat]
  ∧ placed_wins (after_reserve (org_trace
    (@organise_layers spec_configure example_store example_core
       (output_with scenario_b_layers)))) = [2%nat]
  ∧ Forall (λ u, u = mkBox 0 32 1920 1048)
      (configured_against (after_reserve (org_trace
        (@organise_layers spec_configure example_store example_core
           (output_with scenario_b_layers))))).
Proof.
  destruct (@organise_layers_two_passes spec_configure example_store example_core
              (output_with scenario_b_layers)) as (_ & Hc & _ & _ & Hp & Hu).
  split; [|split].
  - rewrite Hc. vm_compute. reflexivity.
  - rewrite Hp. vm_compute. reflexivity.
  - apply (Hu spec_configure_keeps_usable).
Defined.

(** A second call on the output the first call left reports no change. *)
Lemma organise_layers_idempotent_delta_witness :
  reported_deltas (org_trace
    (@organise_layers spec_configure example_store example_core
       (output_with scenario_b_layers)))
  = [((0, 0, 32, 0), example_screen)]
  ∧ reported_deltas (org_trace
      (@organise_layers spec_configure
         (org_store (@organise_layers spec_configure example_store example_core
                       (output_with scenario_b_layers)))
         example_core
         (org_output (@organise_layers spec_configure example_store example_core
                        (output_with scenario_b_layers)))))
    = [((0, 0, 0, 0), example_screen)].
Proof.
  split; [vm_compute; reflexivity|].
  refine (proj2 (@organise_layers_idempotent_delta spec_configure example_store
                   (org_store (@organise_layers spec_configure example_store example_core
                                 (output_with scenario_b_layers)))
                   example_core example_core (output_with scenario_b_layers) _)).
  intros win. reflexivity.
Defined.

(** Scenario B: a 32-row panel at the top reserves (0,0,32,0). *)
Lemma spec_margins_bounded_witness :
  _reserved_space (org_output
    (@organise_layers spec_configure example_store example_core
       (output_with scenario_b_layers))) = (0, 0, 32, 0)
  ∧ margins_bounded 1920 1080
      (_reserved_space (org_output
         (@organise_layers spec_configure example_store example_core
            (output_with scenario_b_layers))))
  ∧ _reserved_space (org_output
      (@organise_layers spec_configure example_store example_core
         (output_with no_layers))) = (0, 0, 0, 0).
Proof.
  destruct (spec_margins_bounded example_store example_core
              (output_with scenario_b_layers)) as (Hm & _ & _ & _ & _ & Hb & _).
  destruct (spec_margins_bounded example_store example_core
              (output_with no_layers)) as (_ & _ & _ & _ & _ & _ & Hnone).
  split; [|split].
  - rewrite Hm. vm_compute. reflexivity.
  - apply Hb; vm_compute; intros Hgt; discriminate Hgt.
  - apply Hnone. reflexivity.
Defined.

(** A panel asking for 2000 rows on a 1080-row output: top + bottom is
    2000, more than the output is high. *)
Lemma oversized_zone_exceeds_output :
  _reserved_space (org_output
    (@organise_layers spec_configure example_store example_core
       (output_with oversized_layers))) = (0, 0, 2000, 0)
  ∧ 1080 < 2000 + 0
  ∧ ¬ margins_bounded 1920 1080
        (_reserved_space (org_output
           (@organise_layers spec_configure example_store example_core
              (output_with oversized_layers)))).
Proof.
  assert (Hm : _reserved_space (org_output
    (@organise_layers spec_configure example_store example_core
       (output_with oversized_layers))) = (0, 0, 2000, 0)) by (vm_compute; reflexivity).
  split; [exact Hm|]. split; [lia|].
  rewrite Hm. unfold margins_bounded. lia.
Qed.

(** Scenario C: S1 (window 3) on OVERLAY, after a surface that wants no
    focus, and S2 (window 4) on TOP: S1 becomes the holder and is focused. *)
Lemma organise_layers_first_exclusive_wins_witness :
  exclusive_layer (org_core
    (@organise_layers spec_configure example_store example_core
       (output_with scenario_c_layers))) = Some 3%nat
  ∧ focused_wins (org_trace
      (@organise_layers spec_configure example_store example_core
         (output_with scenario_c_layers))) = [3%nat].
Proof.
  destruct (@organise_layers_first_exclusive_wins spec_configure example_store
              example_core (output_with scenario_c_layers) [6%nat] [4%nat] 3%nat)
    as (Hh & Hf & _).
  - reflexivity.
  - intros v Hv. apply list_elem_of_singleton in Hv as ->.
    unfold wants_exclusive. simpl. discriminate.
  - reflexivity.
  - exact (conj Hh Hf).
Defined.

(** The launcher gets exclusive focus on TOP and then moves to BOTTOM: the
    next call leaves it as the holder although no surface is on OVERLAY or
    TOP any more. *)
Lemma organise_layers_stale_holder :
  exclusive_layer (org_core launcher_focused) = Some 3%nat
  ∧ exclusive_layer (org_core launcher_moved_down) = Some 3%nat
  ∧ scanned_surfaces (org_output launcher_moved_down) = []
  ∧ ¬ (holder_none (org_core launcher_moved_down)
       ∨ holder_exclusive_on (org_store launcher_moved_down)
           (org_output launcher_moved_down) (org_core launcher_moved_down)).
Proof.
  assert (Hh : exclusive_layer (org_core launcher_moved_down) = Some 3%nat)
    by (vm_compute; reflexivity).
  assert (Hs : scanned_surfaces (org_output launcher_moved_down) = [])
    by (vm_compute; reflexivity).
  split; [vm_compute; reflexivity|]. split; [exact Hh|]. split; [exact Hs|].
  unfold holder_none, holder_exclusive_on. rewrite Hh, Hs.
  intros [Hnone|(win & _ & Hin & _)]; [discriminate|].
  by apply elem_of_nil in Hin.
Qed.

(** After a call the holder is in one of the three states; on scenario C
    it is an EXCLUSIVE surface of the scanned buckets. *)
Lemma organise_layers_holder_state_witness :
  holder_none (org_core
    (@organise_layers spec_configure example_store example_core
       (output_with scenario_c_layers)))
  ∨ holder_exclusive_on
      (org_store (@organise_layers spec_configure example_store example_core
                    (output_with scenario_c_layers)))
      (org_output (@organise_layers spec_configure example_store example_core
                     (output_with scenario_c_layers)))
      (org_core (@organise_layers spec_configure example_store example_core
                   (output_with scenario_c_layers))).
Proof.
  apply (proj2 (proj2 (proj2 (proj2
    (@organise_layers_holder_state spec_configure example_store example_core
       (output_with scenario_c_layers)))))).
  left. reflexivity.
Defined.

(** Two outputs: the left one's scan names the launcher, the right one's
    scan overwrites it with the lock surface; with nothing on the right
    output the launcher stays the holder there too; and once the launcher
    sits on the right output without wanting focus, the right output's
    scan clears the holder the left output's scan had set. *)
Lemma exclusive_layer_shared_by_outputs_witness :
  exclusive_layer (comp_core (@organise_layers_at spec_configure 0 two_outputs).1)
  = Some 3%nat
  ∧ exclusive_layer (comp_core
      (@organise_layers_at spec_configure 1
         (@organise_layers_at spec_configure 0 two_outputs).1).1) = Some 4%nat
  ∧ exclusive_layer (comp_core
      (@organise_layers_at spec_configure 1
         (@organise_layers_at spec_configure 0 left_only).1).1) = Some 3%nat
  ∧ exclusive_layer (comp_core
      (@organise_layers_at spec_configure 1 launcher_moved).1) = None.
Proof.
  destruct (@exclusive_layer_shared_by_outputs spec_configure two_outputs 0 1
              (output_with launcher_on_top) (right_output lock_on_top) 3%nat)
    as (Hset & _ & Hover & Hclear); [lia | reflexivity | reflexivity | reflexivity |].
  destruct (@exclusive_layer_shared_by_outputs spec_configure left_only 0 1
              (output_with launcher_on_top) (right_output no_layers) 3%nat)
    as (_ & Hkeep & _); [lia | reflexivity | reflexivity | reflexivity |].
  split; [exact Hset|]. split; [by apply Hover|]. split.
  - apply Hkeep; [reflexivity|]. apply not_elem_of_nil.
  - apply (Hclear launcher_moved (right_output launcher_on_top)).
    + vm_compute. reflexivity.
    + reflexivity.
    + left.
    + reflexivity.
Defined.

(** ** Further properties of the geometry queries *)

Lemma geometry_rect_fields o :
  rect_x (geometry_rect o) = out_x o ∧ rect_y (geometry_rect o) = out_y o ∧
  rect_width (geometry_rect o) = (effective_resolution o).1 ∧
  rect_height (geometry_rect o) = (effective_resolution o).2.
Proof.
  unfold geometry_rect, get_geometry. by destruct (effective_resolution o).
Qed.

(** X1: [contains] is a symmetric test: the output contains the rectangle
    exactly when an output with the rectangle as bounding box contains the
    first output's geometry. *)
Theorem contains_symmetric (o : Output) (rect : Rect) :
  contains o rect = contains (rect_as_output rect) (geometry_rect o).
Proof.
  apply Bool.eq_iff_eq_true. rewrite !contains_true_iff.
  destruct (geometry_rect_fields o) as (Hx & Hy & Hw & Hh).
  unfold lies_left_of, lies_above, lies_right_of, lies_below.
  rewrite Hx, Hy, Hw, Hh. simpl. lia.
Qed.

(** X2: an output whose effective resolution is not negative contains its
    own geometry, as [get_geometry] gives it. *)
Theorem contains_own_geometry (o : Output) :
  0 ≤ (effective_resolution o).1 →
  0 ≤ (effective_resolution o).2 →
  contains o (geometry_rect o) = true.
Proof.
  intros Hw Hh. apply contains_true_iff.
  destruct (geometry_rect_fields o) as (Ex & Ey & Ew & Eh).
  unfold lies_left_of, lies_above, lies_right_of, lies_below.
  rewrite Ex, Ey, Ew, Eh. lia.
Qed.

Lemma contains_own_geometry_witness :
  contains (right_output no_layers) (geometry_rect (right_output no_layers)) = true.
Proof. apply contains_own_geometry; simpl; lia. Defined.

(** X3: [contains] is monotone: a rectangle that covers a contained
    rectangle is contained too. *)
Theorem contains_covering (o : Output) (outer inner : Rect) :
  covers outer inner →
  contains o inner = true →
  contains o outer = true.
Proof.
  unfold covers. rewrite !contains_true_iff.
  unfold lies_left_of, lies_above, lies_right_of, lies_below. lia.
Qed.

Lemma contains_covering_witness :
  contains (output_with no_layers) (mkRect (-50) (-50) 4000 3000) = true.
Proof.
  apply (contains_covering _ _ (mkRect 1800 0 300 100)).
  - unfold covers. simpl. lia.
  - reflexivity.
Defined.

(** ** Further properties of the screen mapping *)

Lemma find_screen_Some g ss s :
  find_screen g ss = Some s → s ∈ ss ∧ screen_matches g s = true.
Proof.
  induction ss as [|p ss IH]; simpl; [done|].
  destruct (screen_matches g p) eqn:Hp.
  - intros [= <-]. split; [left | done].
  - intros Hs. destruct (IH Hs). split; [by right | done].
Qed.

(** X4: [screen] never invents a mapping: it is the current screen, or one
    of several configured screens and then its position and size equal the
    output's geometry. *)
Theorem screen_sound (c : Core) (o : Output) :
  screen c o = current_screen (qtile c)
  ∨ ((1 < length (screens (qtile c)))%nat
     ∧ screen c o ∈ screens (qtile c)
     ∧ geometry_equal o (screen c o)).
Proof.
  unfold screen. case_bool_decide as Hlen; [|by left].
  destruct (find_screen (get_geometry o) (screens (qtile c))) as [s|] eqn:Hfind;
    [|by left].
  right. apply find_screen_Some in Hfind as [Hin Hm].
  split; [done|]. split; [done|]. by apply screen_matches_spec.
Qed.

(** ** A newly created output *)

(** X5: an output as [__init__] creates it sits at the layout's right
    edge on row 0: a rectangle it contains reaches at least to the old
    layout width, so a rectangle that ends left of it is not contained.  It
    reserves nothing and all its buckets are empty. *)
Theorem init_output_at_right_edge (layout_width : Z) (resolution : Z * Z) (rect : Rect) :
  (contains (__init__ layout_width resolution).1 rect = true →
     layout_width ≤ rect_x rect + rect_width rect
     ∧ rect_x rect ≤ layout_width + resolution.1
     ∧ 0 ≤ rect_y rect + rect_height rect
     ∧ rect_y rect ≤ resolution.2)
  ∧ (rect_x rect + rect_width rect < layout_width →
     contains (__init__ layout_width resolution).1 rect = false)
  ∧ _reserved_space (__init__ layout_width resolution).1 = (0, 0, 0, 0)
  ∧ all_surfaces (__init__ layout_width resolution).1 = [].
Proof.
  split; [|split; [|done]].
  - rewrite contains_true_iff.
    unfold lies_left_of, lies_above, lies_right_of, lies_below. simpl. lia.
  - intros Hleft. apply contains_false_iff. by left.
Qed.

Lemma init_output_at_right_edge_witness :
  contains (__init__ 1920 (1920, 1080)).1 (mkRect 100 100 600 400) = false.
Proof.
  apply (proj1 (proj2 (init_output_at_right_edge 1920 (1920, 1080)
                         (mkRect 100 100 600 400)))).
  simpl. lia.
Defined.

(** ** Further properties of the arrangement *)

Section arrangement_calls.
Context `{placement : ScenePlacement}.

Lemma pass_trace_calls wins full excl st st' u :
  same_committed st' st →
  Forall (configure_in full) (pass_trace (_organise_layer wins full excl st' u))
  ∧ Forall (place_as_desired st) (pass_trace (_organise_layer wins full excl st' u)).
Proof.
  revert st' u. induction wins as [|win wins IH]; intros st' u Hsame; simpl; [done|].
  destruct (xorb excl (0 <? exclusive_zone (current (st' win)))); [by apply IH|].
  assert (Hsame' : ∀ nx ny, same_committed
            (<[win:=mkLayerStatic (current (st' win)) nx ny]> st') st).
  { intros nx ny w. destruct (decide (win = w)) as [->|Hne].
    - rewrite fn_lookup_insert. simpl. apply Hsame.
    - rewrite fn_lookup_insert_ne by done. apply Hsame. }
  cbn [pass_trace]. split.
  - constructor; [done|]. constructor; [done|]. by apply IH.
  - constructor; [done|]. constructor; [|by apply IH].
    simpl. by rewrite (Hsame win).
Qed.

Lemma configured_wins_app tr1 tr2 :
  configured_wins (tr1 ++ tr2) = configured_wins tr1 ++ configured_wins tr2.
Proof. apply omap_app. Qed.

Lemma placed_wins_app tr1 tr2 :
  placed_wins (tr1 ++ tr2) = placed_wins tr1 ++ placed_wins tr2.
Proof. apply omap_app. Qed.

Lemma arranged_wins_reserve d s tr :
  configured_wins (EvReserveSpace d s :: tr) = configured_wins tr
  ∧ placed_wins (EvReserveSpace d s :: tr) = placed_wins tr.
Proof. done. Qed.

(** X6: one call of [organise_layers] configures every surface of the
    output's buckets exactly once and places it exactly once (as often as
    it occurs in the buckets), whatever its exclusive zone; every configure
    call is given the output-local full area (0, 0, width, height), and
    every place call the surface's desired size and a border width of 0. *)
Theorem organise_layers_each_surface_once (st : Store) (c : Core) (o : Output) :
  configured_wins (org_trace (organise_layers st c o)) ≡ₚ all_surfaces o
  ∧ placed_wins (org_trace (organise_layers st c o)) ≡ₚ all_surfaces o
  ∧ Forall (configure_in
              (mkBox 0 0 (effective_resolution o).1 (effective_resolution o).2))
      (org_trace (organise_layers st c o))
  ∧ Forall (place_as_desired st) (org_trace (organise_layers st c o)).
Proof.
  rewrite organise_layers_trace.
  set (full := mkBox 0 0 (effective_resolution o).1 (effective_resolution o).2).
  destruct (exclusive_pass_wins (all_surfaces o) full st st full) as [Hc1 Hp1]; [done|].
  destruct (non_exclusive_pass_wins (all_surfaces o) full st st
              (final_usable_area st o)) as [Hc2 Hp2]; [done|].
  destruct (focus_requests_no_arrangement st (scanned_surfaces o)) as (Hf1 & Hf2 & _).
  destruct (pass_trace_calls (all_surfaces o) full true st st full) as [Ha1 Hb1]; [done|].
  destruct (pass_trace_calls (all_surfaces o) full false st st
              (final_usable_area st o)) as [Ha2 Hb2]; [done|].
  split; [|split; [|split]].
  - rewrite configured_wins_app, (proj1 (arranged_wins_reserve _ _ _)),
      configured_wins_app, Hc1, Hc2, Hf1, app_nil_r.
    apply filter_app_complement.
  - rewrite placed_wins_app, (proj2 (arranged_wins_reserve _ _ _)),
      placed_wins_app, Hp1, Hp2, Hf2, app_nil_r.
    apply filter_app_complement.
  - apply Forall_app. split; [done|]. constructor; [done|].
    apply Forall_app. split; [done|].
    unfold focus_requests. destruct (first_exclusive _ _); repeat constructor.
  - apply Forall_app. split; [done|]. constructor; [done|].
    apply Forall_app. split; [done|].
    unfold focus_requests. destruct (first_exclusive _ _); repeat constructor.
Qed.

Lemma margins_add_sub (old new : Margins) :
  margins_add old (margins_sub new old) = new.
Proof.
  destruct old as [[[a1 a2] a3] a4], new as [[[b1 b2] b3] b4].
  unfold margins_add, margins_sub. repeat f_equal; lia.
Qed.

Lemma organise_layers_reported st c o :
  reported_deltas (org_trace (organise_layers st c o))
  = [(margins_sub (_reserved_space (org_output (organise_layers st c o)))
        (_reserved_space o), screen c o)].
Proof.
  rewrite organise_layers_output. cbn [_reserved_space].
  rewrite organise_layers_trace.
  rewrite reported_deltas_app, reported_deltas_reserve, reported_deltas_app.
  rewrite !(proj1 (pass_trace_only_arranges _ _ _ _ _)).
  unfold focus_requests. by destruct (first_exclusive _ _).
Qed.

(** X7: every call of [organise_layers] reports to the reserved-space sink
    exactly once, for the screen the output maps to, and the reported
    delta added to the reserved space held before the call is the reserved
    space held after it: a sink that sums the deltas tracks the output's
    reserved space. *)
Theorem organise_layers_delta_accounts (st : Store) (c : Core) (o : Output) :
  ∃ delta,
    reported_deltas (org_trace (organise_layers st c o)) = [(delta, screen c o)]
    ∧ margins_add (_reserved_space o) delta
      = _reserved_space (org_output (organise_layers st c o)).
Proof.
  eexists. split; [apply organise_layers_reported|]. apply margins_add_sub.
Qed.

(** X8: the focus router is asked for focus at most once per call: not at
    all when no OVERLAY or TOP surface wants exclusive keyboard focus,
    whatever the surfaces of BOTTOM and BACKGROUND want, and otherwise
    once, for the surface the call records as the holder. *)
Theorem focus_requested_at_most_once (st : Store) (c : Core) (o : Output) :
  (focused_wins (org_trace (organise_layers st c o)) = []
   ∧ ∀ win, win ∈ scanned_surfaces o → ¬ wants_exclusive st win)
  ∨ (∃ win,
       focused_wins (org_trace (organise_layers st c o)) = [win]
       ∧ exclusive_layer (org_core (organise_layers st c o)) = Some win
       ∧ win ∈ scanned_surfaces o
       ∧ wants_exclusive st win).
Proof.
  rewrite organise_layers_trace, organise_layers_core.
  rewrite focused_wins_app, focused_wins_reserve, focused_wins_app.
  rewrite !(proj2 (pass_trace_only_arranges _ _ _ _ _)).
  unfold holder_after, focus_requests.
  destruct (first_exclusive st (scanned_surfaces o)) as [a|] eqn:Hfirst.
  - right. exists a. split; [done|]. split; [done|].
    by apply first_exclusive_elem.
  - left. split; [done|]. by apply first_exclusive_None.
Qed.

(** X9: on an output without layer surfaces [organise_layers] makes a
    single call, the report that gives back whatever was reserved; it
    stores a reserved space of (0,0,0,0) and leaves the core, holder
    included, and every window as they were. *)
Theorem organise_layers_without_surfaces (st : Store) (c : Core) (o : Output) :
  (∀ layer, layers o layer = []) →
  org_trace (organise_layers st c o)
  = [EvReserveSpace (margins_sub (0, 0, 0, 0) (_reserved_space o)) (screen c o)]
  ∧ _reserved_space (org_output (organise_layers st c o)) = (0, 0, 0, 0)
  ∧ org_core (organise_layers st c o) = c
  ∧ ∀ win, org_store (organise_layers st c o) win = st win.
Proof.
  intros Hempty.
  assert (Hzero : _reserved_space (org_output (organise_layers st c o)) = (0, 0, 0, 0))
    by by apply organise_layers_no_surfaces.
  split; [|split; [done|split]].
  - rewrite <- Hzero at 1. rewrite organise_layers_output. cbn [_reserved_space].
    rewrite organise_layers_trace.
    unfold all_surfaces, scanned_surfaces. rewrite !Hempty. reflexivity.
  - rewrite organise_layers_core. unfold holder_after, scanned_surfaces.
    rewrite !Hempty. destruct c as [[h|] q]; reflexivity.
  - intros win. unfold organise_layers.
    destruct (effective_resolution o) as [ow oh].
    rewrite focus_scan_spec, !organise_pass_flat. cbn [org_store].
    unfold all_surfaces. rewrite !Hempty. reflexivity.
Qed.

End arrangement_calls.

Section arrangement_state.
Context `{placement : ScenePlacement}.

(** Surfaces that the exclusive pass skips can be left out of it. *)
Lemma exclusive_pass_usable_filter wins full st st' u :
  same_committed st' st →
  pass_usable (_organise_layer wins full true st' u)
  = pass_usable (_organise_layer (filter (reserves_space st) wins) full true st' u).
Proof.
  revert st' u. induction wins as [|win wins IH]; intros st' u Hsame; [done|].
  rewrite filter_cons.
  assert (Hsame' : ∀ nx ny, same_committed
            (<[win:=mkLayerStatic (current (st' win)) nx ny]> st') st).
  { intros nx ny w. destruct (decide (win = w)) as [->|Hne].
    - rewrite fn_lookup_insert. simpl. apply Hsame.
    - rewrite fn_lookup_insert_ne by done. apply Hsame. }
  destruct (decide (reserves_space st win)) as [Hr|Hr]; unfold reserves_space in Hr.
  - rewrite !organise_layer_cons_usable, (Hsame win).
    rewrite (proj2 (Z.ltb_lt _ _) Hr). cbn [xorb negb].
    rewrite <- (Hsame win). by apply IH.
  - rewrite organise_layer_cons_usable, (Hsame win).
    rewrite (proj2 (Z.ltb_ge _ _)) by lia. cbn [xorb negb]. by apply IH.
Qed.

Lemma all_surfaces_reserving_only st o :
  all_surfaces (reserving_only st o) = filter (reserves_space st) (all_surfaces o).
Proof.
  unfold all_surfaces, reserving_only. simpl. by rewrite !list.filter_app.
Qed.

(** X10: the reserved space depends on the surfaces with a positive
    exclusive zone only: taking every other surface out of the buckets
    leaves the reserved space that [organise_layers] stores unchanged. *)
Theorem reserved_space_ignores_non_reserving (st : Store) (c c2 : Core) (o : Output) :
  _reserved_space (org_output (organise_layers st c o))
  = _reserved_space (org_output (organise_layers st c2 (reserving_only st o))).
Proof.
  rewrite !organise_layers_output. cbn [_reserved_space]. f_equal.
  unfold final_usable_area. cbn [reserving_only with_layers effective_resolution].
  destruct (effective_resolution o) as [ow oh].
  rewrite !organise_pass_flat, all_surfaces_reserving_only.
  by apply exclusive_pass_usable_filter.
Qed.

Lemma first_exclusive_agree st1 st2 wins :
  (∀ win, win ∈ wins →
     keyboard_interactive (current (st1 win)) = keyboard_interactive (current (st2 win))) →
  first_exclusive st1 wins = first_exclusive st2 wins.
Proof.
  induction wins as [|win wins IH]; intros Hagree; simpl; [done|].
  rewrite IH by (intros w Hw; apply Hagree; by right).
  pose proof (Hagree win ltac:(left)) as Hwin.
  repeat case_decide; unfold wants_exclusive in *; congruence.
Qed.

(** X11: the holder and the focus request are decided by the OVERLAY and
    TOP buckets and the keyboard interactivity of their surfaces alone:
    two runs that agree on these, and on the holder before the call, end
    with the same holder and the same focus request, whatever BOTTOM,
    BACKGROUND, the exclusive zones, the resolution or the output's
    position are. *)
Theorem holder_decided_by_overlay_and_top
    (st1 st2 : Store) (c1 c2 : Core) (o1 o2 : Output) :
  layers o1 OVERLAY = layers o2 OVERLAY →
  layers o1 TOP = layers o2 TOP →
  (∀ win, win ∈ scanned_surfaces o1 →
     keyboard_interactive (current (st1 win)) = keyboard_interactive (current (st2 win))) →
  exclusive_layer c1 = exclusive_layer c2 →
  exclusive_layer (org_core (organise_layers st1 c1 o1))
  = exclusive_layer (org_core (organise_layers st2 c2 o2))
  ∧ focused_wins (org_trace (organise_layers st1 c1 o1))
  = focused_wins (org_trace (organise_layers st2 c2 o2)).
Proof.
  intros Hov Htop Hki Hholder.
  assert (Hscan : scanned_surfaces o1 = scanned_surfaces o2).
  { unfold scanned_surfaces. by rewrite Hov, Htop. }
  assert (Hfirst : first_exclusive st1 (scanned_surfaces o1)
                   = first_exclusive st2 (scanned_surfaces o2)).
  { rewrite <- Hscan. by apply first_exclusive_agree. }
  split.
  - rewrite !organise_layers_core. cbn [exclusive_layer].
    unfold holder_after. by rewrite Hfirst, Hholder, Hscan.
  - rewrite !organise_layers_trace.
    rewrite !focused_wins_app, !focused_wins_reserve, !focused_wins_app.
    rewrite !(proj2 (pass_trace_only_arranges _ _ _ _ _)).
    unfold focus_requests. by rewrite Hfirst.
Qed.

End arrangement_state.

(** A BOTTOM surface that wants exclusive focus changes nothing: the
    output with the launcher on BOTTOM behaves like the empty output. *)
Lemma holder_decided_by_overlay_and_top_witness :
  exclusive_layer (org_core
    (@organise_layers spec_configure example_store example_core
       (output_with launcher_on_bottom)))
  = exclusive_layer (org_core
      (@organise_layers spec_configure example_store example_core
         (output_with no_layers))).
Proof.
  apply (@holder_decided_by_overlay_and_top spec_configure example_store example_store
           example_core example_core
           (output_with launcher_on_bottom) (output_with no_layers)); try reflexivity.
Defined.

(** ** A second call changes nothing *)

Section arrangement_again.
Context `{placement : ScenePlacement}.

Lemma organise_layer_cons_store win wins full excl st u :
  pass_store (_organise_layer (win :: wins) full excl st u)
  = if xorb excl (0 <? exclusive_zone (current (st win))) then
      pass_store (_organise_layer wins full excl st u)
    else
      pass_store (_organise_layer wins full excl
        (<[win := mkLayerStatic (current (st win))
                    (cfg_node_x (configure (current (st win)) full u))
                    (cfg_node_y (configure (current (st win)) full u))]> st)
        (cfg_usable (configure (current (st win)) full u))).
Proof.
  simpl. by destruct (xorb excl (0 <? exclusive_zone (current (st win)))).
Qed.

Lemma same_committed_insert st st' win nx ny :
  same_committed st' st →
  same_committed (<[win:=mkLayerStatic (current (st' win)) nx ny]> st') st.
Proof.
  intros Hsame w. destruct (decide (win = w)) as [->|Hne].
  - rewrite fn_lookup_insert. simpl. apply Hsame.
  - rewrite fn_lookup_insert_ne by done. apply Hsame.
Qed.

(** A pass leaves alone every window it does not handle. *)
Lemma organise_layer_store_untouched wins full excl st u w :
  w ∉ wins ∨ xorb excl (0 <? exclusive_zone (current (st w))) = true →
  pass_store (_organise_layer wins full excl st u) w = st w.
Proof.
  revert st u. induction wins as [|win wins IH]; intros st u Hw; [done|].
  rewrite organise_layer_cons_store.
  destruct (xorb excl (0 <? exclusive_zone (current (st win)))) eqn:Hwin.
  - apply IH. destruct Hw as [Hw|Hw]; [left | by right].
    by apply not_elem_of_cons in Hw as [_ ?].
  - assert (Hne : win ≠ w).
    { destruct Hw as [Hw|Hw]; [by apply not_elem_of_cons in Hw as [? _]|].
      intros ->. congruence. }
    rewrite IH; [by rewrite fn_lookup_insert_ne|].
    rewrite fn_lookup_insert_ne by done.
    destruct Hw as [Hw|Hw]; [left | by right].
    by apply not_elem_of_cons in Hw as [_ ?].
Qed.

(** What a pass writes to a window it handles depends on the committed
    states only. *)
Lemma organise_layer_store_ext wins full excl st1 st2 u w :
  same_committed st1 st2 →
  w ∈ wins →
  xorb excl (0 <? exclusive_zone (current (st2 w))) = false →
  pass_store (_organise_layer wins full excl st1 u) w
  = pass_store (_organise_layer wins full excl st2 u) w.
Proof.
  revert st1 st2 u.
  induction wins as [|win wins IH]; intros st1 st2 u Hsame Hin Hw.
  { by apply elem_of_nil in Hin. }
  rewrite !organise_layer_cons_store, (Hsame win).
  destruct (xorb excl (0 <? exclusive_zone (current (st2 win)))) eqn:Hwin.
  - apply IH; [done| |done].
    apply elem_of_cons in Hin as [->|Hin]; [congruence | done].
  - set (v := mkLayerStatic (current (st2 win))
                (cfg_node_x (configure (current (st2 win)) full u))
                (cfg_node_y (configure (current (st2 win)) full u))).
    assert (Hsame' : same_committed (<[win:=v]> st1) (<[win:=v]> st2)).
    { intros x. destruct (decide (win = x)) as [->|Hne].
      - by rewrite !fn_lookup_insert.
      - rewrite !fn_lookup_insert_ne by done. apply Hsame. }
    destruct (decide (w ∈ wins)) as [Hrest|Hrest].
    + apply IH; [done | done |].
      destruct (decide (win = w)) as [->|Hne].
      * by rewrite fn_lookup_insert.
      * by rewrite fn_lookup_insert_ne.
    + apply elem_of_cons in Hin as [->|Hin]; [|done].
      rewrite !organise_layer_store_untouched by by left.
      by rewrite !fn_lookup_insert.
Qed.

Lemma organise_layers_store_eq st c o :
  org_store (organise_layers st c o)
  = pass_store (_organise_layer (all_surfaces o)
      (mkBox 0 0 (effective_resolution o).1 (effective_resolution o).2) false
      (pass_store (_organise_layer (all_surfaces o)
         (mkBox 0 0 (effective_resolution o).1 (effective_resolution o).2) true st
         (mkBox 0 0 (effective_resolution o).1 (effective_resolution o).2)))
      (final_usable_area st o)).
Proof.
  unfold organise_layers, final_usable_area.
  destruct (effective_resolution o) as [ow oh].
  by rewrite focus_scan_spec, !organise_pass_flat.
Qed.

Lemma holder_after_idemp st wins holder :
  holder_after st wins (holder_after st wins holder) = holder_after st wins holder.
Proof.
  unfold holder_after.
  destruct (first_exclusive st wins) as [a|]; [done|].
  destruct holder as [h|]; [|done].
  destruct (decide (h ∈ wins)) as [Hin|Hin]; [done|].
  by rewrite decide_False.
Qed.

(** X12: [organise_layers] reaches a fixed point at once.  Called again on
    what a call left, it leaves the output, the core and every window as
    they are, and repeats the same configure, place and focus calls; only
    the reported delta differs (it is zero). *)
Theorem organise_layers_again_same_state (st : Store) (c : Core) (o : Output) :
  org_output (organise_again (organise_layers st c o))
  = org_output (organise_layers st c o)
  ∧ org_core (organise_again (organise_layers st c o))
    = org_core (organise_layers st c o)
  ∧ (∀ win, org_store (organise_again (organise_layers st c o)) win
            = org_store (organise_layers st c o) win)
  ∧ before_reserve (org_trace (organise_again (organise_layers st c o)))
    = before_reserve (org_trace (organise_layers st c o))
  ∧ after_reserve (org_trace (organise_again (organise_layers st c o)))
    = after_reserve (org_trace (organise_layers st c o)).
Proof.
  unfold organise_again.
  set (r := organise_layers st c o).
  assert (Hsame : same_committed (org_store r) st) by apply organise_layers_store.
  assert (Hout : org_output r
                 = mkOutput (out_x o) (out_y o) (effective_resolution o)
                     (reserved_space_of (effective_resolution o).1
                        (effective_resolution o).2 (final_usable_area st o))
                     (layers o)) by apply organise_layers_output.
  assert (Hfinal : final_usable_area (org_store r) (org_output r)
                   = final_usable_area st o).
  { apply final_usable_area_ext; [done | by rewrite Hout | by rewrite Hout]. }
  assert (Hall : all_surfaces (org_output r) = all_surfaces o).
  { unfold all_surfaces. by rewrite Hout. }
  assert (Hscan : scanned_surfaces (org_output r) = scanned_surfaces o).
  { unfold scanned_surfaces. by rewrite Hout. }
  assert (Hres : effective_resolution (org_output r) = effective_resolution o)
    by by rewrite Hout.
  split; [|split; [|split; [|split]]].
  - rewrite organise_layers_output, Hfinal, Hres. rewrite Hout. reflexivity.
  - rewrite organise_layers_core, Hscan.
    rewrite (holder_after_ext _ _ _ _ Hsame).
    unfold r. rewrite organise_layers_core. cbn [exclusive_layer qtile].
    by rewrite holder_after_idemp.
  - intros w. rewrite organise_layers_store_eq, Hfinal, Hall, Hres.
    unfold r at 2. rewrite organise_layers_store_eq. fold r.
    set (full := mkBox 0 0 (effective_resolution o).1 (effective_resolution o).2).
    set (L := all_surfaces o).
    set (U := final_usable_area st o).
    set (S1 := pass_store (_organise_layer L full true st full)).
    set (S3 := pass_store (_organise_layer L full true (org_store r) full)).
    assert (H1 : same_committed S1 st) by apply organise_layer_current.
    assert (H3 : same_committed S3 st).
    { intros x. unfold S3. rewrite organise_layer_current. apply Hsame. }
    assert (H31 : same_committed S3 S1).
    { intros x. by rewrite H3, H1. }
    destruct (decide (w ∈ L)) as [Hin|Hin].
    + destruct (0 <? exclusive_zone (current (st w))) eqn:Hz.
      * rewrite !organise_layer_store_untouched
          by (right; rewrite ?H3, ?H1, Hz; reflexivity).
        unfold S3, S1. apply organise_layer_store_ext; [done | done |].
        by rewrite Hz.
      * apply organise_layer_store_ext; [done | done |].
        by rewrite H1, Hz.
    + rewrite !organise_layer_store_untouched by by left.
      unfold S3. rewrite organise_layer_store_untouched by by left.
      unfold r. rewrite organise_layers_store_eq.
      fold full L U S1. rewrite organise_layer_store_untouched by by left.
      unfold S1. by rewrite organise_layer_store_untouched by by left.
  - subst r. rewrite !organise_layers_trace, Hall, Hres.
    rewrite !before_reserve_app by apply organise_layer_no_reserve.
    apply (proj2 (organise_layer_ext _ _ _ _ _ _ Hsame)).
  - subst r. rewrite !organise_layers_trace, Hall, Hres, Hscan, Hfinal.
    rewrite !after_reserve_app by apply organise_layer_no_reserve.
    f_equal.
    + apply (proj2 (organise_layer_ext _ _ _ _ _ _ Hsame)).
    + by apply focus_requests_ext.
Qed.

End arrangement_again.

(** An output that had 32 rows reserved at the top and lost its last
    surface gives them back. *)
Lemma organise_layers_without_surfaces_witness :
  org_trace (@organise_layers spec_configure example_store example_core
               (mkOutput 0 0 (1920, 1080) (0, 0, 32, 0) no_layers))
  = [EvReserveSpace (0, 0, -32, 0) example_screen].
Proof.
  apply (proj1 (@organise_layers_without_surfaces spec_configure example_store
                  example_core (mkOutput 0 0 (1920, 1080) (0, 0, 32, 0) no_layers)
                  (λ _, eq_refl))).
Defined.
